(** * Branch prediction unit of MIPT-MIPS: the prediction table [BP<T>],
    its entries and the factory [BPFactory] (simulator/bpu/bpu.h).

    The table is embedded as written: a two-dimensional array of entries
    indexed [data[way][set]] next to a tag array that decides hit, way and
    set.  The methods run in a small monad that threads the table, records
    every call made on the tag array and on the entries, and stops where the
    C++ indexes a vector out of range or divides by zero. *)

From Stdlib Require Import NArith ZArith Lia.
From stdpp Require Import base option list strings gmap.

Open Scope N_scope.

(** ** Machine parameters

    [Addr] is an unsigned integer type declared in infra/types.h; its bit
    width, the value an entry's target has before it is trained, and the way
    the tag array reports next to a miss are parameters of the development. *)

Definition Addr := N.

Class Platform := {
  addr_width : N;
  unset_target : Addr;
  miss_way : N
}.

(** [PC + 4] on [Addr]: unsigned addition, modulo two to the width. *)
Definition addr_add `{Platform} (a b : Addr) : Addr := (a + b) mod 2 ^ addr_width.

(** bp_interface.h: [BPInterface( pc, is_taken, target)] carries both a
    prediction (to the fetch stage) and a resolved outcome (to [update]). *)
Module BPInterface.
Record t := mk {
  pc : Addr;
  is_taken : bool;
  target : Addr
}.
End BPInterface.

(** ** Prediction entries (bpentry.h) *)

Module BPEntry.

(** The members [BP<T>] uses of its entry type [T]. [init] is the
    value-initialised entry that [std::vector<T>( n)] holds. *)
Class Ops (T : Type) := {
  init : T;
  is_taken : T → Addr → bool;
  getTarget : T → Addr;
  update_target : T → Addr → T;
  reset : T → T;
  update : T → bool → Addr → T
}.

(** What an entry type owes the table: [reset] leaves the cold state,
    whatever the entry held. *)
Class Laws (T : Type) `{Ops T} : Prop := {
  reset_init : ∀ e : T, reset e = init
}.

Section Entries.
Context `{Platform}.

(** Modelled from the spec: bpentry.h is not among the sources. AlwaysTaken
    predicts taken whatever it was trained with and keeps the most recently
    trained target. *)
Record BPEntryAlwaysTaken := mkAlwaysTaken { at_target : Addr }.

#[global] Instance AlwaysTaken_ops : Ops BPEntryAlwaysTaken := {|
  init := mkAlwaysTaken unset_target;
  is_taken := λ _ _, true;
  getTarget := at_target;
  update_target := λ _ t, mkAlwaysTaken t;
  reset := λ _, mkAlwaysTaken unset_target;
  update := λ _ _ t, mkAlwaysTaken t
|}.

(** Modelled from the spec: BackwardJumps predicts [target <= addr] with the
    most recently trained target; the trained direction is stored and not
    used. *)
Record BPEntryBackwardJumps := mkBackwardJumps { bj_target : Addr; bj_taken : bool }.

#[global] Instance BackwardJumps_ops : Ops BPEntryBackwardJumps := {|
  init := mkBackwardJumps unset_target false;
  is_taken := λ e PC, bool_decide (bj_target e ≤ PC);
  getTarget := bj_target;
  update_target := λ e t, mkBackwardJumps t (bj_taken e);
  reset := λ _, mkBackwardJumps unset_target false;
  update := λ _ taken t, mkBackwardJumps t taken
|}.

(** Modelled from the spec: OneBit holds the last observed direction; train
    overwrites it unconditionally. *)
Record BPEntryOneBit := mkOneBit { ob_target : Addr; ob_state : bool }.

#[global] Instance OneBit_ops : Ops BPEntryOneBit := {|
  init := mkOneBit unset_target false;
  is_taken := λ e _, ob_state e;
  getTarget := ob_target;
  update_target := λ e t, mkOneBit t (ob_state e);
  reset := λ _, mkOneBit unset_target false;
  update := λ _ taken t, mkOneBit t taken
|}.

(** Modelled from the spec: the four states of the TwoBit saturating
    counter, strongly-not-taken, weakly-not-taken, weakly-taken and
    strongly-taken. *)
Inductive State := SNT | WNT | WT | ST.

Definition State_is_taken (s : State) : bool :=
  match s with WT | ST => true | SNT | WNT => false end.

Definition State_update (s : State) (taken : bool) : State :=
  if taken
  then match s with SNT => WNT | WNT => WT | WT => ST | ST => ST end
  else match s with ST => WT | WT => WNT | WNT => SNT | SNT => SNT end.

(** Position of a state on the scale from strongly-not-taken (0) to
    strongly-taken (3). *)
Definition State_level (s : State) : N :=
  match s with SNT => 0 | WNT => 1 | WT => 2 | ST => 3 end.

(** Modelled from the spec: the specification does not name the state an
    allocated counter starts from.  It is taken to be weakly-not-taken, a
    state from which one taken training predicts taken (section 8,
    train-then-query after an allocation); statements about a counter name
    the state it is in rather than rely on this choice. *)
Definition default_state : State := WNT.

Record BPEntryTwoBit := mkTwoBit { tb_target : Addr; tb_state : State }.

#[global] Instance TwoBit_ops : Ops BPEntryTwoBit := {|
  init := mkTwoBit unset_target default_state;
  is_taken := λ e _, State_is_taken (tb_state e);
  getTarget := tb_target;
  update_target := λ e t, mkTwoBit t (tb_state e);
  reset := λ _, mkTwoBit unset_target default_state;
  update := λ e taken t, mkTwoBit t (State_update (tb_state e) taken)
|}.

(** Modelled from the spec: Adaptive-history(K) holds a K-bit shift register
    of recent outcomes and one saturating counter per register value;
    prediction reads the counter the register selects, train updates that
    counter by the TwoBit rule and then shifts the observed bit in, dropping
    the oldest. *)
Record BPEntryAdaptive (K : N) := mkAdaptive {
  ad_target : Addr;
  current_pattern : N;
  state_table : list State
}.
Arguments mkAdaptive {K}.
Arguments ad_target {K}.
Arguments current_pattern {K}.
Arguments state_table {K}.

Definition selected {K} (e : BPEntryAdaptive K) : State :=
  default (default_state) (state_table e !! N.to_nat (current_pattern e)).

Definition pattern_update (K : N) (p : N) (taken : bool) : N :=
  (2 * p + (if taken then 1 else 0)) mod 2 ^ K.

Definition Adaptive_init (K : N) : BPEntryAdaptive K :=
  mkAdaptive unset_target 0 (replicate (N.to_nat (2 ^ K)) default_state).

#[global] Instance Adaptive_ops (K : N) : Ops (BPEntryAdaptive K) := {|
  init := Adaptive_init K;
  is_taken := λ e _, State_is_taken (selected e);
  getTarget := ad_target;
  update_target := λ e t, mkAdaptive t (current_pattern e) (state_table e);
  reset := λ _, Adaptive_init K;
  update := λ e taken t,
    mkAdaptive t
      (pattern_update K (current_pattern e) taken)
      (alter (λ s, State_update s taken) (N.to_nat (current_pattern e)) (state_table e))
|}.

End Entries.
End BPEntry.

(** ** The tag array (infra/cache/cache_tag_array.h) *)

Module CacheTagArray.
Section Tags.
Context `{Platform}.

(** Modelled from the spec: cache_tag_array.h is not among the sources. The
    Associative Address Store has a capacity, a number of ways, a line
    granularity and a tag width, and evicts in LRU style.  Every set is kept
    as the list of its ways, each with the tag resident in it, in order of
    use: most recently used first, the next victim last.  The capacity is
    counted in entries, matching the table's [size_in_entries / ways] rows,
    and the constructor takes every geometry: the specification names no
    failure of the store. *)
Record state := mk {
  size_in_entries : N;
  ways : N;
  line_size : N;
  addr_size_in_bits : N;
  lines : list (list (N * option N))
}.

Definition num_sets (c : state) : N := size_in_entries c / ways c.

(** The tag of an address: its line number within the tag width. *)
Definition tag (c : state) (addr : Addr) : N :=
  (addr mod 2 ^ addr_size_in_bits c) / line_size c.

(** [set( addr)]: the storage-set index of an address. *)
Definition set (c : state) (addr : Addr) : N := tag c addr mod num_sets c.

Definition holds (t : N) (l : N * option N) : Prop := l.2 = Some t.

#[global] Instance holds_dec t l : Decision (holds t l).
Proof. unfold holds. apply _. Defined.

Definition find_way (t : N) (row : list (N * option N)) : option N :=
  fst <$> head (filter (holds t) row).

(** Moving the way that holds a tag to the most recently used position. *)
Definition touch (t : N) (row : list (N * option N)) : list (N * option N) :=
  filter (holds t) row ++ filter (λ l, ¬ holds t l) row.

(** The constructor: every set starts with all its ways empty, way 0 the
    first victim. *)
Definition empty_row (ways : N) : list (N * option N) :=
  (λ w, (N.of_nat w, None)) <$> reverse (seq 0 (N.to_nat ways)).

Definition new (size_in_entries ways line_size addr_size_in_bits : N) : state :=
  mk size_in_entries ways line_size addr_size_in_bits
     (replicate (N.to_nat (size_in_entries / ways)) (empty_row ways)).

(** [read_no_touch( addr)]: the peek lookup, hit and way. *)
Definition read_no_touch (c : state) (addr : Addr) : bool * N :=
  match lines c !! N.to_nat (set c addr) ≫= find_way (tag c addr) with
  | Some way => (true, way)
  | None => (false, miss_way)
  end.

(** [read( addr)]: the touching lookup; on a hit the way becomes the most
    recently used of its set. *)
Definition read (c : state) (addr : Addr) : (bool * N) * state :=
  let r := read_no_touch c addr in
  (r, if r.1
      then mk (size_in_entries c) (ways c) (line_size c) (addr_size_in_bits c)
              (alter (touch (tag c addr)) (N.to_nat (set c addr)) (lines c))
      else c).

(** [write( addr)]: insertion; the least recently used way of the set takes
    the tag of [addr], whatever it held, and becomes the most recently
    used.  A set that does not exist has no way to give. *)
Definition write (c : state) (addr : Addr) : N * state :=
  match lines c !! N.to_nat (set c addr) with
  | Some row =>
      match reverse row with
      | (way, _) :: rest =>
          (way, mk (size_in_entries c) (ways c) (line_size c) (addr_size_in_bits c)
                   (<[N.to_nat (set c addr) := (way, Some (tag c addr)) :: reverse rest]>
                      (lines c)))
      | [] => (miss_way, c)
      end
  | None => (miss_way, c)
  end.

End Tags.
End CacheTagArray.

(** ** The prediction table [BP<T>] *)

Module BP.

(** The calls a method makes on the tag array and on the entry at a
    coordinate, in the order they happen. *)
Inductive Call :=
| tags_set (PC : Addr)
| tags_read_no_touch (PC : Addr)
| tags_read (PC : Addr)
| tags_write (PC : Addr)
| entry_is_taken (way set : N) (PC : Addr)
| entry_getTarget (way set : N)
| entry_reset (way set : N)
| entry_update_target (way set : N) (target : Addr)
| entry_update (way set : N) (is_taken : bool) (target : Addr).

#[global] Instance Call_eq_dec : EqDecision Call.
Proof. solve_decision. Defined.

Section Table.
Context `{Platform} {T : Type} `{BPEntry.Ops T}.

Record table := mk {
  data : list (list T);
  tags : CacheTagArray.state
}.

(** A method run on a table: nothing where the C++ has no defined result,
    otherwise the value returned, the table left behind and the calls
    made. *)
Definition Exec (A : Type) : Type := table → option (A * table * list Call).

#[global] Instance Exec_ret : MRet Exec := λ A a bp, Some (a, bp, []).

#[global] Instance Exec_bind : MBind Exec := λ A B f m bp,
  match m bp with
  | Some (a, bp', calls) =>
      match f a bp' with
      | Some (b, bp'', calls') => Some (b, bp'', calls ++ calls')
      | None => None
      end
  | None => None
  end.

(** [data[ way][ set]], undefined outside the array. *)
Definition at_ (d : list (list T)) (way set : N) : option T :=
  d !! N.to_nat way ≫= (.!! N.to_nat set).

Definition store (d : list (list T)) (way set : N) (e : T) : list (list T) :=
  alter (<[N.to_nat set := e]>) (N.to_nat way) d.

Definition call_set (PC : Addr) : Exec N :=
  λ bp, Some (CacheTagArray.set (tags bp) PC, bp, [tags_set PC]).

Definition call_read_no_touch (PC : Addr) : Exec (bool * N) :=
  λ bp, Some (CacheTagArray.read_no_touch (tags bp) PC, bp, [tags_read_no_touch PC]).

Definition call_read (PC : Addr) : Exec (bool * N) :=
  λ bp, let '(r, c) := CacheTagArray.read (tags bp) PC in
        Some (r, mk (data bp) c, [tags_read PC]).

Definition call_write (PC : Addr) : Exec N :=
  λ bp, let '(way, c) := CacheTagArray.write (tags bp) PC in
        Some (way, mk (data bp) c, [tags_write PC]).

(** A const member called on [data[ way][ set]]. *)
Definition on_entry {A} (way set : N) (c : Call) (f : T → A) : Exec A :=
  λ bp, e ← at_ (data bp) way set; Some (f e, bp, [c]).

(** A mutating member called on [data[ way][ set]]. *)
Definition in_entry (way set : N) (c : Call) (f : T → T) : Exec () :=
  λ bp, e ← at_ (data bp) way set;
        Some ((), mk (store (data bp) way set (f e)) (tags bp), [c]).

(** [BP( size_in_entries, ways, branch_ip_size_in_bits)]: [data] is
    initialised first, and [size_in_entries / ways] has no value for
    [ways = 0]. *)
Definition new (size_in_entries ways branch_ip_size_in_bits : N) : option table :=
  if decide (ways = 0) then None
  else Some (mk (replicate (N.to_nat ways)
                   (replicate (N.to_nat (size_in_entries / ways)) BPEntry.init))
                (CacheTagArray.new size_in_entries ways 4 branch_ip_size_in_bits)).

Definition is_taken (PC : Addr) : Exec bool :=
  '(is_hit, way) ← call_read_no_touch PC;
  if (is_hit : bool)
  then set ← call_set PC;
       on_entry way set (entry_is_taken way set PC) (λ e, BPEntry.is_taken e PC)
  else mret false.

Definition get_target (PC : Addr) : Exec Addr :=
  '(is_hit, way) ← call_read_no_touch PC;
  taken ← (if (is_hit : bool) then is_taken PC else mret false);
  if is_hit && taken
  then set ← call_set PC;
       on_entry way set (entry_getTarget way set) BPEntry.getTarget
  else mret (addr_add PC 4).

Definition update (bp_upd : BPInterface.t) : Exec () :=
  set ← call_set (BPInterface.pc bp_upd);
  '(is_hit, way) ← call_read (BPInterface.pc bp_upd);
  way ← (if negb (is_hit : bool)
         then way ← call_write (BPInterface.pc bp_upd);
              in_entry way set (entry_reset way set) BPEntry.reset;;
              in_entry way set (entry_update_target way set (BPInterface.target bp_upd))
                (λ entry, BPEntry.update_target entry (BPInterface.target bp_upd));;
              mret way
         else mret way);
  in_entry way set
    (entry_update way set (BPInterface.is_taken bp_upd) (BPInterface.target bp_upd))
    (λ entry, BPEntry.update entry (BPInterface.is_taken bp_upd) (BPInterface.target bp_upd)).

(** The two arguments of [BPInterface( PC, is_taken( PC), get_target( PC))]
    are const calls; they are run here in the order written. *)
Definition get_bp_info (PC : Addr) : Exec BPInterface.t :=
  taken ← is_taken PC;
  target ← get_target PC;
  mret (BPInterface.mk PC taken target).

(** The single-lookup form of [get_bp_info] that the specification asks
    for: one peek, and both direction and target derived from its result. *)
Definition get_bp_info_single_lookup (PC : Addr) : Exec BPInterface.t :=
  '(is_hit, way) ← call_read_no_touch PC;
  if (is_hit : bool)
  then set ← call_set PC;
       taken ← on_entry way set (entry_is_taken way set PC) (λ e, BPEntry.is_taken e PC);
       target ← (if (taken : bool)
                 then on_entry way set (entry_getTarget way set) BPEntry.getTarget
                 else mret (addr_add PC 4));
       mret (BPInterface.mk PC taken target)
  else mret (BPInterface.mk PC false (addr_add PC 4)).

(** What remains of a run: the value and the table, without the calls. *)
Definition result {A} (r : option (A * table * list Call)) : option (A * table) :=
  fst <$> r.

Definition calls {A} (r : option (A * table * list Call)) : list Call :=
  default [] (snd <$> r).

(** The public members, as the pipeline calls them one after another. *)
Inductive Op :=
| do_is_taken (PC : Addr)
| do_get_target (PC : Addr)
| do_get_bp_info (PC : Addr)
| do_update (bp_upd : BPInterface.t).

Definition step (o : Op) : Exec () :=
  match o with
  | do_is_taken PC => is_taken PC;; mret ()
  | do_get_target PC => get_target PC;; mret ()
  | do_get_bp_info PC => get_bp_info PC;; mret ()
  | do_update bp_upd => update bp_upd
  end.

Fixpoint run (ops : list Op) : Exec () :=
  match ops with
  | [] => mret ()
  | o :: ops => step o;; run ops
  end.

(** The prediction state of every line by its training history alone: the
    tag array decides hit or miss, a miss starts the line from the cold
    entry seeded with the target, and every event trains the line once.
    No coordinate takes part. *)
Definition train_line (bp_upd : BPInterface.t) (s : CacheTagArray.state * gmap N T)
    : CacheTagArray.state * gmap N T :=
  let PC := BPInterface.pc bp_upd in
  let t := CacheTagArray.tag s.1 PC in
  let '((is_hit, _), c) := CacheTagArray.read s.1 PC in
  let train e := BPEntry.update e (BPInterface.is_taken bp_upd) (BPInterface.target bp_upd) in
  if (is_hit : bool)
  then (c, alter train t s.2)
  else ((CacheTagArray.write c PC).2,
        <[t := train (BPEntry.update_target BPEntry.init (BPInterface.target bp_upd))]> s.2).

Definition history_step (s : CacheTagArray.state * gmap N T) (o : Op)
    : CacheTagArray.state * gmap N T :=
  match o with
  | do_update bp_upd => train_line bp_upd s
  | _ => s
  end.

Definition history (c : CacheTagArray.state) (ops : list Op)
    : CacheTagArray.state * gmap N T :=
  foldl history_step (c, ∅) ops.

End Table.
End BP.

(** ** The factory [BPFactory] *)

Module BPFactory.
Section Factory.
Context `{Platform}.

(** [std::unique_ptr<BaseBP>]: a table whose entry algorithm the caller no
    longer sees; one case per instantiation the factory registers. *)
Inductive BaseBP :=
| always_taken (bp : BP.table (T := BPEntry.BPEntryAlwaysTaken))
| backward_jumps (bp : BP.table (T := BPEntry.BPEntryBackwardJumps))
| one_bit (bp : BP.table (T := BPEntry.BPEntryOneBit))
| two_bit (bp : BP.table (T := BPEntry.BPEntryTwoBit))
| adaptive (bp : BP.table (T := BPEntry.BPEntryAdaptive 2)).

(** A virtual call through the handle. *)
Definition virtual {A} (m : ∀ T, BPEntry.Ops T → BP.Exec (T := T) A) (h : BaseBP)
    : option (A * BaseBP * list BP.Call) :=
  match h with
  | always_taken bp => '(a, bp', cs) ← m _ _ bp; Some (a, always_taken bp', cs)
  | backward_jumps bp => '(a, bp', cs) ← m _ _ bp; Some (a, backward_jumps bp', cs)
  | one_bit bp => '(a, bp', cs) ← m _ _ bp; Some (a, one_bit bp', cs)
  | two_bit bp => '(a, bp', cs) ← m _ _ bp; Some (a, two_bit bp', cs)
  | adaptive bp => '(a, bp', cs) ← m _ _ bp; Some (a, adaptive bp', cs)
  end.

Definition is_taken (PC : Addr) := virtual (λ T _, BP.is_taken PC).
Definition get_target (PC : Addr) := virtual (λ T _, BP.get_target PC).
Definition get_bp_info (PC : Addr) := virtual (λ T _, BP.get_bp_info PC).
Definition update (bp_upd : BPInterface.t) := virtual (λ T _, BP.update bp_upd).

(** [BPCreator<T>::create]. *)
Definition BPCreator := N → N → N → option BaseBP.

Definition create_with {T} `{BPEntry.Ops T} (wrap : BP.table (T := T) → BaseBP) : BPCreator :=
  λ size_in_entries ways branch_ip_size_in_bits,
    wrap <$> BP.new size_in_entries ways branch_ip_size_in_bits.

(** A [std::map<std::string, V>] as the list of its pairs in key order, the
    order in which the map is iterated. *)
Fixpoint map_insert {V} (k : string) (v : V) (m : list (string * V)) : list (string * V) :=
  match m with
  | [] => [(k, v)]
  | (k', v') :: m' =>
      if String.eqb k k' then m
      else if String.ltb k k' then (k, v) :: m
      else (k', v') :: map_insert k v m'
  end.

Fixpoint map_find {V} (k : string) (m : list (string * V)) : option V :=
  match m with
  | [] => None
  | (k', v) :: m' => if String.eqb k k' then Some v else map_find k m'
  end.

(** The initializer list of the constructor [BPFactory()]. *)
Definition initializer_list : list (string * BPCreator) :=
  [ ("static_always_taken"%string, create_with always_taken);
    ("static_backward_jumps"%string, create_with backward_jumps);
    ("dynamic_one_bit"%string, create_with one_bit);
    ("dynamic_two_bit"%string, create_with two_bit);
    ("adaptive_two_level"%string, create_with adaptive) ].

Definition map : list (string * BPCreator) :=
  foldl (λ m kv, map_insert kv.1 kv.2 m) [] initializer_list.

Definition endl : string := String (Ascii.ascii_of_N 10) EmptyString.
Definition tab : string := String (Ascii.ascii_of_N 9) EmptyString.

(** [EXIT_FAILURE] of <cstdlib>. *)
Definition EXIT_FAILURE : N := 1.

(** How a call of [create] ends: it returns a handle, or the process exits
    with what was written to [std::cerr] and a status, or the behaviour is
    undefined. *)
Inductive Outcome :=
| Returned (bp : BaseBP)
| Exited (cerr : string) (status : N)
| Undefined.

Definition create (name : string) (size_in_entries ways branch_ip_size_in_bits : N)
    : Outcome :=
  match map_find name map with
  | None =>
      Exited
        ("ERROR. Invalid branch prediction mode " +:+ name +:+ endl
           +:+ "Supported modes:" +:+ endl
           +:+ String.concat EmptyString ((λ map_name, tab +:+ map_name.1 +:+ endl) <$> map))
        EXIT_FAILURE
  | Some creator =>
      match creator size_in_entries ways branch_ip_size_in_bits with
      | Some bp => Returned bp
      | None => Undefined
      end
  end.

(** [branch_ip_size_in_bits = 32], the default argument. *)
Definition create_default (name : string) (size_in_entries ways : N) : Outcome :=
  create name size_in_entries ways 32.

(** The recognized names. *)
Definition names : list string :=
  [ "static_always_taken"; "static_backward_jumps"; "dynamic_one_bit";
    "dynamic_two_bit"; "adaptive_two_level" ]%string.

(** The shape of the table behind a handle. *)
Definition columns (h : BaseBP) : list nat :=
  match h with
  | always_taken bp => length <$> BP.data bp
  | backward_jumps bp => length <$> BP.data bp
  | one_bit bp => length <$> BP.data bp
  | two_bit bp => length <$> BP.data bp
  | adaptive bp => length <$> BP.data bp
  end.

Definition tags (h : BaseBP) : CacheTagArray.state :=
  match h with
  | always_taken bp => BP.tags bp
  | backward_jumps bp => BP.tags bp
  | one_bit bp => BP.tags bp
  | two_bit bp => BP.tags bp
  | adaptive bp => BP.tags bp
  end.

End Factory.
End BPFactory.

(** ** The expectations of the ports test (infra/ports/t/unit_test.cpp)

    [Cycle] and [Latency] are counters declared with the ports; they are
    embedded as [N], and [int] as [Z]. *)

Module ports_testing.

Definition PORT_LATENCY : N := 1.
Definition DATA_LIMIT : Z := 5.

(** [INT_MAX] of <climits>, for a 32-bit [int]. *)
Definition INT_MAX : Z := 2 ^ 31 - 1.

(** A write to a port, by the key the port was made with. *)
Inductive PortWrite :=
| write_int (key : string) (data : Z) (cycle : N)
| write_bool (key : string) (data : bool) (cycle : N).

Module Logic.

Inductive CheckCode :=
| DATA_FROM_A
| DATA_FROM_B
| DATA_INIT
| IS_FROM_A_READY
| IS_FROM_B_READY
| IS_INIT_READY
| IS_STOP_READY.

#[global] Instance CheckCode_eq_dec : EqDecision CheckCode.
Proof. solve_decision. Defined.

Definition NONE : Z := -1.
Definition EXPECTED_MAX_CYCLE : N := 8.

Record State := mkState {
  is_from_A_ready : bool;
  is_from_B_ready : bool;
  is_init_ready : bool;
  data_from_A : Z;
  data_from_B : Z
}.

(** The member initialiser of [blogic]. *)
Definition blogic : gmap N State :=
  list_to_map
    [ (0, mkState false false false NONE NONE);
      (1, mkState false false true NONE NONE);
      (2, mkState true false false 1 NONE);
      (3, mkState false true false NONE 2);
      (4, mkState true false false 3 NONE);
      (5, mkState false true false NONE 4);
      (6, mkState true false false 5 NONE);
      (7, mkState false true false NONE 6);
      (8, mkState false false false NONE NONE) ].

(** [std::map::operator[]]: a key that is missing is inserted with a
    value-initialised [State]. *)
Definition index (m : gmap N State) (cycle : N) : State * gmap N State :=
  match m !! cycle with
  | Some s => (s, m)
  | None =>
      let s := mkState false false false 0 0 in
      (s, <[cycle := s]> m)
  end.

(** The three readiness cases of [check_readiness] differ in the field
    they read and clear:
    [is_ok = blogic[cycle].f == is_ready;
     if ( is_ok && is_ready) blogic[cycle].f = false;]. *)
Definition check_flag (f : State → bool) (clear : State → State)
    (m : gmap N State) (cycle : N) (is_ready : bool) : bool * gmap N State :=
  let '(s, m) := index m cycle in
  let is_ok := eqb (f s) is_ready in
  if is_ok && is_ready
  then let '(s, m) := index m cycle in (is_ok, <[cycle := clear s]> m)
  else (is_ok, m).

Definition check_readiness (m : gmap N State) (cycle : N) (code : CheckCode)
    (is_ready : bool) : bool * gmap N State :=
  if EXPECTED_MAX_CYCLE <? cycle then (false, m)
  else
    match code with
    | IS_STOP_READY => (eqb (cycle =? EXPECTED_MAX_CYCLE) is_ready, m)
    | IS_INIT_READY =>
        check_flag is_init_ready
          (λ s, mkState (is_from_A_ready s) (is_from_B_ready s) false
                  (data_from_A s) (data_from_B s))
          m cycle is_ready
    | IS_FROM_A_READY =>
        check_flag is_from_A_ready
          (λ s, mkState false (is_from_B_ready s) (is_init_ready s)
                  (data_from_A s) (data_from_B s))
          m cycle is_ready
    | IS_FROM_B_READY =>
        check_flag is_from_B_ready
          (λ s, mkState (is_from_A_ready s) false (is_init_ready s)
                  (data_from_A s) (data_from_B s))
          m cycle is_ready
    | _ => (false, m)
    end.

Definition check_data (m : gmap N State) (cycle : N) (code : CheckCode) (data : Z)
    : bool * gmap N State :=
  if (EXPECTED_MAX_CYCLE <? cycle) || (data <? 0)%Z then (false, m)
  else
    match code with
    | DATA_INIT => ((cycle =? 1) && (data =? 0)%Z, m)
    | DATA_FROM_A => let '(s, m) := index m cycle in ((data_from_A s =? data)%Z, m)
    | DATA_FROM_B => let '(s, m) := index m cycle in ((data_from_B s =? data)%Z, m)
    | _ => (false, m)
    end.

End Logic.

(** [A::process_data]: [++data] has no value at [INT_MAX]; past the limit
    the stop signal is written, otherwise the data goes to B. The ports are
    the ones [A::A()] makes: [to_B] under "A_to_B", [stop] under "stop".
    [GTEST_ASSERT_NO_DEATH] runs its statement in a child process first and
    then in the caller: the write recorded is the caller's. *)
Module A.
Definition process_data (data : Z) (cycle : N) : option PortWrite :=
  if (INT_MAX <=? data)%Z then None
  else
    let data := (data + 1)%Z in
    if (DATA_LIMIT <? data)%Z then Some (write_bool "stop" true cycle)
    else Some (write_int "A_to_B" data cycle).
End A.

(** [B::process_data]: the incremented data goes back to A, through the
    port [B::B()] makes under "B_to_A". *)
Module B.
Definition process_data (data : Z) (cycle : N) : option PortWrite :=
  if (INT_MAX <=? data)%Z then None
  else Some (write_int "B_to_A" (data + 1)%Z cycle).
End B.

End ports_testing.

Definition mips32 : Platform :=
  {| addr_width := 32; unset_target := 0xFFFFFFFF; miss_way := 0xFFFFFFFF |}.

(** * The vocabulary of the properties *)

(** ** States of the tag array *)

Section TagArrayStates.
Context `{Platform}.
Implicit Types (row : list (N * option N)) (c : CacheTagArray.state).

(** A set lists each of its ways once, and no tag in two ways. *)
Definition wf_row (ways : N) row : Prop :=
  length row = N.to_nat ways ∧
  NoDup row.*1 ∧
  (∀ l, l ∈ row → l.1 < ways) ∧
  (∀ w1 w2 t, (w1, Some t) ∈ row → (w2, Some t) ∈ row → w1 = w2).

Definition wf_tags c : Prop :=
  length (CacheTagArray.lines c) = N.to_nat (CacheTagArray.num_sets c) ∧
  Forall (wf_row (CacheTagArray.ways c)) (CacheTagArray.lines c).

(** Tag [t] is resident in way [w] of set [s]. *)
Definition resident c (w s t : N) : Prop :=
  ∃ row, CacheTagArray.lines c !! N.to_nat s = Some row ∧ (w, Some t) ∈ row.

(** The parameters a tag array is built with; no member changes them. *)
Definition geometry c : N * N * N * N :=
  (CacheTagArray.size_in_entries c, CacheTagArray.ways c,
   CacheTagArray.line_size c, CacheTagArray.addr_size_in_bits c).

End TagArrayStates.

(** ** Calls and sequences of calls *)

(** The calls of [update( taken, target)] on an entry. *)
Definition is_train (c : BP.Call) : bool :=
  match c with BP.entry_update _ _ _ _ => true | _ => false end.

(** The peek lookups among the calls of a run. *)
Definition is_peek (c : BP.Call) : bool :=
  match c with BP.tags_read_no_touch _ => true | _ => false end.

(** The calls that change the tag array or an entry. *)
Definition is_mutating (c : BP.Call) : bool :=
  match c with
  | BP.tags_read _ | BP.tags_write _ | BP.entry_reset _ _
  | BP.entry_update_target _ _ _ | BP.entry_update _ _ _ _ => true
  | _ => false
  end.

(** The coordinate of a call on an entry lies inside an array of [ways]
    columns and [rows] rows. *)
Definition in_bounds (ways rows : N) (c : BP.Call) : Prop :=
  match c with
  | BP.entry_is_taken way set _ | BP.entry_getTarget way set | BP.entry_reset way set
  | BP.entry_update_target way set _ | BP.entry_update way set _ _ =>
      way < ways ∧ set < rows
  | _ => True
  end.

(** The members that predict; [update] is the one that trains. *)
Definition is_query (o : BP.Op) : Prop :=
  match o with BP.do_update _ => False | _ => True end.

(** ** States of the table *)

Section TableStates.
Context `{Platform} {T : Type} `{BPEntry.Ops T}.
Implicit Types (bp : BP.table (T := T)) (s : CacheTagArray.state * gmap N T).

(** The shape the constructor gives a table: as many columns as the tag
    array has ways, each with as many rows as it has sets. *)
Definition BP_wf bp : Prop :=
  wf_tags (BP.tags bp) ∧
  CacheTagArray.ways (BP.tags bp) ≠ 0 ∧
  length (BP.data bp) = N.to_nat (CacheTagArray.ways (BP.tags bp)) ∧
  Forall (λ col, length col = N.to_nat (CacheTagArray.num_sets (BP.tags bp))) (BP.data bp).

(** The entry [update] trains: the resident one on a hit, a reset and
    seeded one on a miss. *)
Definition trains_from bp (bp_upd : BPInterface.t) (e0 : T) : Prop :=
  let PC := BPInterface.pc bp_upd in
  match CacheTagArray.read_no_touch (BP.tags bp) PC with
  | (true, w) => BP.at_ (BP.data bp) w (CacheTagArray.set (BP.tags bp) PC) = Some e0
  | (false, _) =>
      ∃ e, e0 = BPEntry.update_target (BPEntry.reset e) (BPInterface.target bp_upd)
  end.

(** After [update( {a, taken, t})] the address is predicted taken with
    target [t], and stays so through any further queries. *)
Definition predicted_taken_after_update bp (a t : Addr) : Prop :=
  ∃ bp' cs, BP.update (BPInterface.mk a true t) bp = Some ((), bp', cs) ∧
    ∀ qs, Forall is_query qs →
      ∃ cs' cs1 cs2,
        BP.run qs bp' = Some ((), bp', cs') ∧
        BP.is_taken a bp' = Some (true, bp', cs1) ∧
        BP.get_target a bp' = Some (t, bp', cs2).

(** The table agrees with the per-line training history [s]: same tag
    array, and every resident tag sits in the set its value selects, at a
    coordinate whose entry is the state the history gives the line. *)
Definition synced bp s : Prop :=
  BP_wf bp ∧ BP.tags bp = s.1 ∧
  ∀ w st t, resident (BP.tags bp) w st t →
    st = t mod CacheTagArray.num_sets (BP.tags bp) ∧
    ∃ e, BP.at_ (BP.data bp) w st = Some e ∧ s.2 !! t = Some e.

End TableStates.

Section TwoBitStates.
Context `{Platform}.
Implicit Types (bp : BP.table (T := BPEntry.BPEntryTwoBit)).

(** A hit address holds the two-bit state [s]. *)
Definition counter_at bp (PC : Addr) (s : BPEntry.State) : Prop :=
  ∃ w e, CacheTagArray.read_no_touch (BP.tags bp) PC = (true, w) ∧
    BP.at_ (BP.data bp) w (CacheTagArray.set (BP.tags bp) PC) = Some e ∧
    BPEntry.tb_state e = s.

End TwoBitStates.

(** ** Adaptive entries that a taken training leaves predicting taken *)

(** The condition is on the entry before the training.  The training moves
    the counter at the current history one state towards strongly-taken and
    shifts a one into the history; the next prediction reads the counter at
    the shifted history.  If the shift leaves the history as it was, that
    is the counter just trained, which must not have been
    strongly-not-taken; otherwise it is a counter the training did not
    touch, which must be in a taken state. *)
Definition taken_after_shift {K : N} (e : BPEntry.BPEntryAdaptive K) : Prop :=
  let p := BPEntry.current_pattern K e in
  let p' := BPEntry.pattern_update K p true in
  if decide (p' = p)
  then ∃ s, BPEntry.state_table K e !! N.to_nat p = Some s ∧ s ≠ BPEntry.SNT
  else ∃ s, BPEntry.state_table K e !! N.to_nat p' = Some s ∧
            BPEntry.State_is_taken s = true.

(** ** The algorithm behind a handle, and the name it is registered under *)

Definition algorithm_name (h : BPFactory.BaseBP) : string :=
  match h with
  | BPFactory.always_taken _ => "static_always_taken"
  | BPFactory.backward_jumps _ => "static_backward_jumps"
  | BPFactory.one_bit _ => "dynamic_one_bit"
  | BPFactory.two_bit _ => "dynamic_two_bit"
  | BPFactory.adaptive _ => "adaptive_two_level"
  end.

(** ** Sequences of checks on the expectations of the ports test *)

(** One call of a member of [Logic]. *)
Inductive LogicCall :=
| call_check_readiness (cycle : N) (code : ports_testing.Logic.CheckCode) (is_ready : bool)
| call_check_data (cycle : N) (code : ports_testing.Logic.CheckCode) (data : Z).

Definition do_check (m : gmap N ports_testing.Logic.State) (c : LogicCall)
    : bool * gmap N ports_testing.Logic.State :=
  match c with
  | call_check_readiness cycle code is_ready =>
      ports_testing.Logic.check_readiness m cycle code is_ready
  | call_check_data cycle code d => ports_testing.Logic.check_data m cycle code d
  end.

(** The expectations left by a sequence of checks. *)
Definition after_checks (checks : list LogicCall) (m : gmap N ports_testing.Logic.State)
    : gmap N ports_testing.Logic.State :=
  foldl (λ m c, (do_check m c).2) m checks.

(** A cycle's expectations [s'] keep the data of [s] and set no readiness
    flag that [s] has clear. *)
Definition narrows (s' s : ports_testing.Logic.State) : Prop :=
  ports_testing.Logic.data_from_A s' = ports_testing.Logic.data_from_A s ∧
  ports_testing.Logic.data_from_B s' = ports_testing.Logic.data_from_B s ∧
  (ports_testing.Logic.is_from_A_ready s' = true →
   ports_testing.Logic.is_from_A_ready s = true) ∧
  (ports_testing.Logic.is_from_B_ready s' = true →
   ports_testing.Logic.is_from_B_ready s = true) ∧
  (ports_testing.Logic.is_init_ready s' = true →
   ports_testing.Logic.is_init_ready s = true).

(** The readiness codes whose expectation a successful check consumes. *)
Definition consumable (code : ports_testing.Logic.CheckCode) : Prop :=
  code = ports_testing.Logic.IS_INIT_READY ∨
  code = ports_testing.Logic.IS_FROM_A_READY ∨
  code = ports_testing.Logic.IS_FROM_B_READY.

(** The flag of a cycle's expectations that a readiness code reads. *)
Definition flag (code : ports_testing.Logic.CheckCode) (s : ports_testing.Logic.State)
    : bool :=
  match code with
  | ports_testing.Logic.IS_INIT_READY => ports_testing.Logic.is_init_ready s
  | ports_testing.Logic.IS_FROM_A_READY => ports_testing.Logic.is_from_A_ready s
  | ports_testing.Logic.IS_FROM_B_READY => ports_testing.Logic.is_from_B_ready s
  | _ => false
  end.

(** Expectations that came from the initial ones by clearing readiness
    flags: the same cycles, and for each cycle the same data and no flag
    that was not set. *)
Definition narrowed (m : gmap N ports_testing.Logic.State) : Prop :=
  ∀ cycle,
    match m !! cycle, ports_testing.Logic.blogic !! cycle with
    | Some s, Some s0 => narrows s s0
    | None, None => True
    | _, _ => False
    end.

(** The code under which data is expected in a cycle: the initial datum
    in cycle 1, then data from A in the even cycles and from B in the odd
    ones. *)
Definition data_code (cycle : N) : ports_testing.Logic.CheckCode :=
  if cycle =? 1 then ports_testing.Logic.DATA_INIT
  else if N.even cycle then ports_testing.Logic.DATA_FROM_A
  else ports_testing.Logic.DATA_FROM_B.

(** ** Concrete tables, on a 32-bit platform *)

Section Mips32Tables.
#[local] Existing Instance mips32.

(** A two-way table of eight entries with two-bit counters, as the
    constructor leaves it. *)
Definition fresh_two_bit : BP.table (T := BPEntry.BPEntryTwoBit) :=
  BP.mk (replicate 2 (replicate 4 BPEntry.init)) (CacheTagArray.new 8 2 4 32).

(** The fresh table after one taken branch at 0x1000 to 0x2000. *)
Definition trained_two_bit : BP.table (T := BPEntry.BPEntryTwoBit) :=
  BP.mk (BP.store (BP.data fresh_two_bit) 0 0 (BPEntry.mkTwoBit 0x2000 BPEntry.WT))
        (CacheTagArray.write (CacheTagArray.new 8 2 4 32) 0x1000).2.

(** The fresh table after one not-taken branch at 0x1000: the counter is
    strongly-not-taken. *)
Definition cold_trained_two_bit : BP.table (T := BPEntry.BPEntryTwoBit) :=
  BP.mk (BP.store (BP.data fresh_two_bit) 0 0 (BPEntry.mkTwoBit 0x2000 BPEntry.SNT))
        (CacheTagArray.write (CacheTagArray.new 8 2 4 32) 0x1000).2.

(** A two-way table of eight adaptive entries of two history bits after
    three taken branches at 0x1000 to 0x2000: the history of the entry is
    all ones, and the counters at the histories 0, 1 and 3 were trained
    taken once each. *)
Definition trained_adaptive : BP.table (T := BPEntry.BPEntryAdaptive 2) :=
  BP.mk (BP.store (replicate 2 (replicate 4 BPEntry.init)) 0 0
           (BPEntry.mkAdaptive 2 0x2000 3
              [BPEntry.State_update BPEntry.default_state true;
               BPEntry.State_update BPEntry.default_state true;
               BPEntry.default_state;
               BPEntry.State_update BPEntry.default_state true]))
        (CacheTagArray.write (CacheTagArray.new 8 2 4 32) 0x1000).2.

(** A table of one way and one entry whose entry was trained taken for
    0x1000. *)
Definition single_entry_table : BP.table (T := BPEntry.BPEntryOneBit) :=
  BP.mk [[BPEntry.mkOneBit 0x2000 true]]
        (CacheTagArray.write (CacheTagArray.new 1 1 4 32) 0x1000).2.

End Mips32Tables.

(** A decidable proposition about concrete values, by evaluation. *)
Ltac by_decide :=
  lazymatch goal with |- ?P => apply (bool_decide_unpack P); vm_compute; exact I end.

(** * Properties *)

(** ** The tag array: well-formed states and residency *)

Section TagArrayFacts.
Context `{Platform}.
Implicit Types (row : list (N * option N)) (c : CacheTagArray.state).

Lemma NoDup_fst_functional row w o o' :
  NoDup row.*1 → (w, o) ∈ row → (w, o') ∈ row → o = o'.
Proof.
  induction row as [|[w0 o0] row IH]; csimpl; [by intros _ ?%elem_of_nil|].
  intros [Hnin Hnd]%NoDup_cons [?|Hin]%elem_of_cons [?|Hin']%elem_of_cons; simplify_eq.
  - done.
  - by apply (list_elem_of_fmap_2 fst) in Hin'.
  - by apply (list_elem_of_fmap_2 fst) in Hin.
  - by apply IH.
Qed.

Lemma find_way_elem t row w :
  CacheTagArray.find_way t row = Some w → (w, Some t) ∈ row.
Proof.
  unfold CacheTagArray.find_way. intros Hf.
  destruct (head (filter (CacheTagArray.holds t) row)) as [[w' o]|] eqn:Hh; [|done].
  simpl in Hf. simplify_eq. apply head_Some_elem_of in Hh.
  apply list_elem_of_filter in Hh as [Hholds ?].
  unfold CacheTagArray.holds in Hholds. simpl in Hholds. by subst.
Qed.

Lemma find_way_None t row w :
  CacheTagArray.find_way t row = None → (w, Some t) ∉ row.
Proof.
  unfold CacheTagArray.find_way. intros Hf Hin.
  destruct (head (filter (CacheTagArray.holds t) row)) eqn:Hh; [done|].
  apply head_None in Hh.
  by eapply (filter_nil_not_elem_of _ _ (w, Some t)) in Hh.
Qed.

Lemma find_way_resident ways t row w :
  wf_row ways row → (w, Some t) ∈ row → CacheTagArray.find_way t row = Some w.
Proof.
  intros (_ & _ & _ & Htag) Hin.
  destruct (CacheTagArray.find_way t row) as [w'|] eqn:Hf.
  - f_equal. eapply Htag; [by apply find_way_elem|done].
  - by apply (find_way_None _ _ w) in Hf.
Qed.

Lemma touch_perm t row : CacheTagArray.touch t row ≡ₚ row.
Proof. apply filter_app_complement. Qed.

Lemma wf_row_perm ways row row' : row' ≡ₚ row → wf_row ways row → wf_row ways row'.
Proof.
  intros Hp (Hlen & Hnd & Hlt & Htag). repeat split.
  - by rewrite Hp.
  - by rewrite Hp.
  - intros l. rewrite Hp. apply Hlt.
  - intros w1 w2 t. rewrite !Hp. apply Htag.
Qed.

Lemma wf_row_touch ways t row : wf_row ways row → wf_row ways (CacheTagArray.touch t row).
Proof. apply wf_row_perm, touch_perm. Qed.

(** Replacing the victim: what the set holds afterwards. *)
Lemma elem_of_replaced ways row w old rest t w' o :
  wf_row ways row → reverse row = (w, old) :: rest →
  (w', o) ∈ (w, Some t) :: reverse rest ↔
  (w' = w ∧ o = Some t) ∨ ((w', o) ∈ row ∧ w' ≠ w).
Proof.
  intros (_ & Hnd & _ & _) Hrev.
  assert (row = reverse rest ++ [(w, old)]) as ->.
  { by rewrite <- (reverse_involutive row), Hrev, reverse_cons. }
  rewrite fmap_app in Hnd. apply NoDup_app in Hnd as (_ & Hdisj & _).
  rewrite elem_of_cons, elem_of_app, list_elem_of_singleton. split.
  - intros [?|Hin]; [left; by simplify_eq|right]. split; [by left|].
    intros ->. eapply Hdisj; [by apply (list_elem_of_fmap_2 fst) in Hin|].
    simpl. apply list_elem_of_singleton. done.
  - intros [[-> ->]|[[Hin|?] Hne]]; [by left|by right|by simplify_eq].
Qed.

Lemma wf_row_replaced ways row w old rest t :
  wf_row ways row → reverse row = (w, old) :: rest →
  (∀ w', (w', Some t) ∉ row) →
  wf_row ways ((w, Some t) :: reverse rest).
Proof.
  intros Hwf Hrev Hmiss. pose proof Hwf as (Hlen & Hnd & Hlt & Htag).
  assert (row = reverse rest ++ [(w, old)]) as Hrow.
  { by rewrite <- (reverse_involutive row), Hrev, reverse_cons. }
  repeat split.
  - rewrite <- Hlen, Hrow, length_app. simpl. lia.
  - rewrite Hrow, fmap_app in Hnd. simpl in Hnd.
    rewrite fmap_cons. simpl.
    apply NoDup_app in Hnd as (Hnd & Hdisj & _). apply NoDup_cons. split; [|done].
    intros Hin. eapply Hdisj; [done|]. by apply list_elem_of_singleton.
  - intros [w' o] Hin.
    apply (elem_of_replaced ways row w old rest t w' o Hwf Hrev) in Hin as [[-> ->]|[Hin _]];
      [|by apply (Hlt (w', o))].
    simpl. apply (Hlt (w, old)). rewrite Hrow, elem_of_app, list_elem_of_singleton. by right.
  - intros w1 w2 t'.
    rewrite !(elem_of_replaced ways row w old rest t) by done.
    intros [[-> ?]|[Hin1 Hne1]] [[-> ?]|[Hin2 Hne2]]; simplify_eq; try done.
    + by apply Hmiss in Hin2.
    + by apply Hmiss in Hin1.
    + by eapply Htag.
Qed.

Lemma geometry_set c c' a :
  geometry c' = geometry c → CacheTagArray.set c' a = CacheTagArray.set c a.
Proof.
  unfold geometry, CacheTagArray.set, CacheTagArray.tag, CacheTagArray.num_sets.
  intros [= -> -> -> ->]. done.
Qed.

Lemma geometry_tag c c' a :
  geometry c' = geometry c → CacheTagArray.tag c' a = CacheTagArray.tag c a.
Proof. unfold geometry, CacheTagArray.tag. intros [= _ _ -> ->]. done. Qed.

Lemma geometry_num_sets c c' :
  geometry c' = geometry c → CacheTagArray.num_sets c' = CacheTagArray.num_sets c.
Proof. unfold geometry, CacheTagArray.num_sets. intros [= -> -> _ _]. done. Qed.

Lemma geometry_ways c c' :
  geometry c' = geometry c → CacheTagArray.ways c' = CacheTagArray.ways c.
Proof. unfold geometry. intros [= _ -> _ _]. done. Qed.

Lemma set_lt c a :
  CacheTagArray.num_sets c ≠ 0 → CacheTagArray.set c a < CacheTagArray.num_sets c.
Proof. intros. unfold CacheTagArray.set. by apply N.mod_lt. Qed.

(** The peek lookup hits exactly the resident tags. *)
Lemma peek_cases c a :
  (∃ w, CacheTagArray.read_no_touch c a = (true, w) ∧
        resident c w (CacheTagArray.set c a) (CacheTagArray.tag c a)) ∨
  (CacheTagArray.read_no_touch c a = (false, miss_way) ∧
   (wf_tags c → ∀ w, ¬ resident c w (CacheTagArray.set c a) (CacheTagArray.tag c a))).
Proof.
  unfold CacheTagArray.read_no_touch, resident.
  destruct (CacheTagArray.lines c !! N.to_nat (CacheTagArray.set c a)) as [row|] eqn:Hrow;
    simpl; [|right; split; [done|]; by intros _ w (? & ? & _)].
  destruct (CacheTagArray.find_way (CacheTagArray.tag c a) row) as [w|] eqn:Hf.
  - left. exists w. split; [done|]. exists row. split; [done|]. by apply find_way_elem.
  - right. split; [done|]. intros _ w (row' & ? & Hin). simplify_eq.
    by apply (find_way_None _ _ w) in Hf.
Qed.

Lemma peek_hit c a w :
  wf_tags c →
  CacheTagArray.read_no_touch c a = (true, w) ↔
  resident c w (CacheTagArray.set c a) (CacheTagArray.tag c a).
Proof.
  intros Hwf. split.
  - intros Hr. destruct (peek_cases c a) as [(w' & Hr' & ?)|[Hr' _]];
      rewrite Hr in Hr'; by simplify_eq.
  - intros (row & Hrow & Hin). unfold CacheTagArray.read_no_touch. rewrite Hrow. simpl.
    destruct Hwf as [_ Hrows]. eapply Forall_lookup_1 in Hrows; [|done].
    by erewrite find_way_resident.
Qed.

Lemma resident_lt c w s t :
  wf_tags c → resident c w s t → w < CacheTagArray.ways c ∧ s < CacheTagArray.num_sets c.
Proof.
  intros [Hlen Hrows] (row & Hrow & Hin). split.
  - eapply Forall_lookup_1 in Hrows as (_ & _ & Hlt & _); [|done]. by apply (Hlt _ Hin).
  - apply lookup_lt_Some in Hrow. lia.
Qed.

(** A way of a set holds one tag, and a tag sits in one way. *)
Lemma resident_way c w s t t' :
  wf_tags c → resident c w s t → resident c w s t' → t = t'.
Proof.
  intros [_ Hrows] (row & Hrow & Hin) (row' & ? & Hin'). simplify_eq.
  eapply Forall_lookup_1 in Hrows as (_ & Hnd & _ & _); [|done].
  assert (Some t = Some t') by by eapply NoDup_fst_functional.
  by simplify_eq.
Qed.

Lemma resident_tag c w w' s t :
  wf_tags c → resident c w s t → resident c w' s t → w = w'.
Proof.
  intros [_ Hrows] (row & Hrow & Hin) (row' & ? & Hin'). simplify_eq.
  eapply Forall_lookup_1 in Hrows as (_ & _ & _ & Htag); [|done]. by eapply Htag.
Qed.

(** The touching lookup answers as the peek does and keeps every tag where
    it is; only the order of use changes. *)
Lemma read_fst c a : (CacheTagArray.read c a).1 = CacheTagArray.read_no_touch c a.
Proof. done. Qed.

Lemma read_geometry c a : geometry (CacheTagArray.read c a).2 = geometry c.
Proof. unfold CacheTagArray.read. simpl. by destruct (CacheTagArray.read_no_touch c a).1. Qed.

Lemma read_resident c a w s t :
  resident (CacheTagArray.read c a).2 w s t ↔ resident c w s t.
Proof.
  unfold CacheTagArray.read. simpl.
  destruct (CacheTagArray.read_no_touch c a).1; [|done].
  unfold resident. simpl.
  destruct (decide (N.to_nat (CacheTagArray.set c a) = N.to_nat s)) as [<-|Hne].
  - rewrite list_lookup_alter_eq.
    destruct (CacheTagArray.lines c !! N.to_nat (CacheTagArray.set c a)) as [row|]; simpl.
    + split; intros (row' & ? & Hin); simplify_eq; eexists; (split; [done|]).
      * by rewrite touch_perm in Hin.
      * by rewrite touch_perm.
    + split; by intros (? & ? & _).
  - by rewrite list_lookup_alter_ne.
Qed.

Lemma read_wf c a : wf_tags c → wf_tags (CacheTagArray.read c a).2.
Proof.
  intros [Hlen Hrows]. unfold CacheTagArray.read. simpl.
  destruct (CacheTagArray.read_no_touch c a).1; [|done].
  split; simpl.
  - by rewrite length_alter.
  - apply Forall_alter; [done|]. intros row _. apply wf_row_touch.
Qed.

(** Insertion after a miss: the victim way of the set takes the tag, and
    every other coordinate keeps what it held. *)
Lemma write_miss c a :
  wf_tags c → CacheTagArray.ways c ≠ 0 → CacheTagArray.num_sets c ≠ 0 →
  (∀ w, ¬ resident c w (CacheTagArray.set c a) (CacheTagArray.tag c a)) →
  ∃ w c', CacheTagArray.write c a = (w, c') ∧ w < CacheTagArray.ways c ∧
    geometry c' = geometry c ∧ wf_tags c' ∧
    ∀ w' s t, resident c' w' s t ↔
      (w' = w ∧ s = CacheTagArray.set c a ∧ t = CacheTagArray.tag c a) ∨
      (resident c w' s t ∧ ¬ (w' = w ∧ s = CacheTagArray.set c a)).
Proof.
  intros [Hlen Hrows] Hways Hsets Hmiss.
  pose proof (set_lt c a Hsets) as Hlt.
  destruct (lookup_lt_is_Some_2 (CacheTagArray.lines c) (N.to_nat (CacheTagArray.set c a)))
    as [row Hrow]; [lia|].
  pose proof (Forall_lookup_1 _ _ _ _ Hrows Hrow) as Hwf.
  destruct (reverse row) as [|[w old] rest] eqn:Hrev.
  { destruct Hwf as (Hl & _). rewrite <- (length_reverse row), Hrev in Hl. simpl in Hl. lia. }
  assert (∀ w', (w', Some (CacheTagArray.tag c a)) ∉ row) as Hmiss'.
  { intros w' Hin. apply (Hmiss w'). by exists row. }
  exists w, (CacheTagArray.mk (CacheTagArray.size_in_entries c) (CacheTagArray.ways c)
               (CacheTagArray.line_size c) (CacheTagArray.addr_size_in_bits c)
               (<[N.to_nat (CacheTagArray.set c a) :=
                    (w, Some (CacheTagArray.tag c a)) :: reverse rest]> (CacheTagArray.lines c))).
  split; [|split; [|split; [|split]]].
  - unfold CacheTagArray.write. by rewrite Hrow, Hrev.
  - destruct Hwf as (_ & _ & Hw & _). apply (Hw (w, old)).
    rewrite <- elem_of_reverse, Hrev. by left.
  - done.
  - split; simpl.
    + by rewrite length_insert.
    + apply Forall_insert; [done|]. by eapply wf_row_replaced.
  - intros w' s t. unfold resident at 1. simpl.
    destruct (decide (s = CacheTagArray.set c a)) as [->|Hne].
    + rewrite list_lookup_insert_eq by (apply lookup_lt_Some in Hrow; lia). split.
      * intros (row' & ? & Hin). simplify_eq.
        apply (elem_of_replaced _ _ _ _ _ _ _ _ Hwf Hrev) in Hin as [[-> ?]|[Hin ?]];
          simplify_eq; [by left|right]. split; [by exists row|]. by intros [? _].
      * intros [(-> & _ & ->)|[(row' & ? & Hin) Hn]]; simplify_eq;
          eexists; (split; [done|]); apply (elem_of_replaced _ _ _ _ _ _ _ _ Hwf Hrev).
        -- by left.
        -- right. split; [done|]. intros ->. by apply Hn.
    + rewrite list_lookup_insert_ne by (intros ?%N2Nat.inj; done). split.
      * intros Hres. right. split; [done|]. by intros [_ ?].
      * intros [(_ & ? & _)|[? _]]; done.
Qed.

(** A freshly constructed tag array is well formed and holds no tag. *)
Lemma empty_row_wf ways : wf_row ways (CacheTagArray.empty_row ways).
Proof.
  unfold CacheTagArray.empty_row. repeat split.
  - by rewrite length_fmap, length_reverse, length_seq.
  - rewrite <- list_fmap_compose.
    apply NoDup_fmap_2_strong; [|rewrite reverse_Permutation; apply NoDup_seq].
    intros w1 w2 _ _. simpl. lia.
  - intros l (w & -> & Hin)%list_elem_of_fmap. simpl.
    apply elem_of_reverse, elem_of_seq in Hin. lia.
  - intros w1 w2 t (w & ? & _)%list_elem_of_fmap. done.
Qed.

Lemma new_wf size ways line bits : wf_tags (CacheTagArray.new size ways line bits).
Proof.
  split; simpl.
  - by rewrite length_replicate.
  - apply Forall_replicate, empty_row_wf.
Qed.

Lemma new_no_resident size ways line bits w s t :
  ¬ resident (CacheTagArray.new size ways line bits) w s t.
Proof.
  intros (row & Hrow & Hin). simpl in Hrow. apply lookup_replicate in Hrow as [-> _].
  apply list_elem_of_fmap in Hin as (? & ? & _). done.
Qed.

End TagArrayFacts.

(** ** The table: shape, and what each member computes *)

Arguments CacheTagArray.read : simpl never.
Arguments CacheTagArray.read_no_touch : simpl never.
Arguments CacheTagArray.write : simpl never.
Arguments CacheTagArray.set : simpl never.
Arguments CacheTagArray.tag : simpl never.
Arguments BP.at_ : simpl never.
Arguments BP.store : simpl never.

Section TableFacts.
Context `{Platform} {T : Type} `{BPEntry.Ops T}.
Implicit Types (bp : BP.table (T := T)) (d : list (list T)).

Lemma at_is_Some bp w s :
  BP_wf bp → w < CacheTagArray.ways (BP.tags bp) →
  s < CacheTagArray.num_sets (BP.tags bp) → is_Some (BP.at_ (BP.data bp) w s).
Proof.
  intros (_ & _ & Hcols & Hrows) Hw Hs. unfold BP.at_.
  destruct (lookup_lt_is_Some_2 (BP.data bp) (N.to_nat w)) as [col Hcol]; [lia|].
  rewrite Hcol. simpl. apply lookup_lt_is_Some_2.
  eapply Forall_lookup_1 in Hrows; [|done]. simpl in Hrows. lia.
Qed.

Lemma at_store_eq d w s e0 e : BP.at_ d w s = Some e0 → BP.at_ (BP.store d w s e) w s = Some e.
Proof.
  unfold BP.at_, BP.store. rewrite list_lookup_alter_eq.
  destruct (d !! N.to_nat w) as [col|]; simpl; [|done].
  intros Hs. apply list_lookup_insert_eq. by eapply lookup_lt_Some.
Qed.

Lemma at_store_ne d w s w' s' e :
  ¬ (w' = w ∧ s' = s) → BP.at_ (BP.store d w s e) w' s' = BP.at_ d w' s'.
Proof.
  intros Hne. unfold BP.at_, BP.store.
  destruct (decide (w' = w)) as [->|Hw].
  - rewrite list_lookup_alter_eq. destruct (d !! N.to_nat w) as [col|]; simpl; [|done].
    apply list_lookup_insert_ne. intros ?%N2Nat.inj. by apply Hne.
  - rewrite list_lookup_alter_ne; [done|]. intros ?%N2Nat.inj. done.
Qed.

Lemma store_store d w s e1 e2 : BP.store (BP.store d w s e1) w s e2 = BP.store d w s e2.
Proof.
  unfold BP.store. rewrite list_alter_alter_eq. apply list_alter_ext; [|done].
  intros col _. simpl. apply list_insert_insert_eq.
Qed.

Lemma store_shape d w s e n m :
  length d = n → Forall (λ col, length col = m) d →
  length (BP.store d w s e) = n ∧ Forall (λ col, length col = m) (BP.store d w s e).
Proof.
  intros Hn Hm. unfold BP.store. split; [by rewrite length_alter|].
  apply Forall_alter; [done|]. intros col _. by rewrite length_insert.
Qed.

(** [is_taken]: one peek; on a hit the set index and the entry's direction. *)
Lemma is_taken_eq PC bp :
  BP.is_taken PC bp =
  match CacheTagArray.read_no_touch (BP.tags bp) PC with
  | (true, way) =>
      let set := CacheTagArray.set (BP.tags bp) PC in
      e ← BP.at_ (BP.data bp) way set;
      Some (BPEntry.is_taken e PC, bp,
            [BP.tags_read_no_touch PC; BP.tags_set PC; BP.entry_is_taken way set PC])
  | (false, _) => Some (false, bp, [BP.tags_read_no_touch PC])
  end.
Proof.
  unfold BP.is_taken, mbind, BP.Exec_bind, BP.call_read_no_touch. simpl.
  destruct (CacheTagArray.read_no_touch (BP.tags bp) PC) as [[] way]; [|done].
  unfold BP.call_set, BP.on_entry. simpl.
  by destruct (BP.at_ (BP.data bp) way (CacheTagArray.set (BP.tags bp) PC)).
Qed.

(** [get_target]: a peek, the direction query again, and on a taken hit the
    entry's target; the fallthrough otherwise. *)
Lemma get_target_eq PC bp :
  BP.get_target PC bp =
  match CacheTagArray.read_no_touch (BP.tags bp) PC with
  | (true, way) =>
      let set := CacheTagArray.set (BP.tags bp) PC in
      e ← BP.at_ (BP.data bp) way set;
      Some (if BPEntry.is_taken e PC then BPEntry.getTarget e else addr_add PC 4, bp,
            [BP.tags_read_no_touch PC; BP.tags_read_no_touch PC; BP.tags_set PC;
             BP.entry_is_taken way set PC]
            ++ (if BPEntry.is_taken e PC
                then [BP.tags_set PC; BP.entry_getTarget way set] else []))
  | (false, _) => Some (addr_add PC 4, bp, [BP.tags_read_no_touch PC])
  end.
Proof.
  unfold BP.get_target. unfold mbind at 1 2. unfold BP.Exec_bind at 1 2.
  unfold BP.call_read_no_touch at 1. cbv beta iota.
  destruct (CacheTagArray.read_no_touch (BP.tags bp) PC) as [[] way] eqn:Hr; [|done].
  rewrite is_taken_eq, Hr. cbv zeta.
  destruct (BP.at_ (BP.data bp) way (CacheTagArray.set (BP.tags bp) PC)) as [e|] eqn:He;
    [|done].
  simpl. destruct (BPEntry.is_taken e PC); [|done].
  unfold mbind, BP.Exec_bind, BP.call_set, BP.on_entry. simpl. by rewrite He.
Qed.

Lemma get_bp_info_eq PC bp :
  BP.get_bp_info PC bp =
  match CacheTagArray.read_no_touch (BP.tags bp) PC with
  | (true, way) =>
      let set := CacheTagArray.set (BP.tags bp) PC in
      e ← BP.at_ (BP.data bp) way set;
      Some (BPInterface.mk PC (BPEntry.is_taken e PC)
              (if BPEntry.is_taken e PC then BPEntry.getTarget e else addr_add PC 4), bp,
            [BP.tags_read_no_touch PC; BP.tags_set PC; BP.entry_is_taken way set PC;
             BP.tags_read_no_touch PC; BP.tags_read_no_touch PC; BP.tags_set PC;
             BP.entry_is_taken way set PC]
            ++ (if BPEntry.is_taken e PC
                then [BP.tags_set PC; BP.entry_getTarget way set] else []))
  | (false, _) =>
      Some (BPInterface.mk PC false (addr_add PC 4), bp,
            [BP.tags_read_no_touch PC; BP.tags_read_no_touch PC])
  end.
Proof.
  unfold BP.get_bp_info. unfold mbind at 1 2. unfold BP.Exec_bind at 1 2.
  rewrite is_taken_eq.
  destruct (CacheTagArray.read_no_touch (BP.tags bp) PC) as [[] way] eqn:Hr.
  - cbv zeta.
    destruct (BP.at_ (BP.data bp) way (CacheTagArray.set (BP.tags bp) PC)) as [e|] eqn:He;
      [|done].
    simpl. rewrite get_target_eq, Hr. simpl. rewrite He. simpl.
    unfold mret, BP.Exec_ret. by rewrite app_nil_r.
  - rewrite get_target_eq, Hr. done.
Qed.

Lemma get_bp_info_single_lookup_eq PC bp :
  BP.get_bp_info_single_lookup PC bp =
  match CacheTagArray.read_no_touch (BP.tags bp) PC with
  | (true, way) =>
      let set := CacheTagArray.set (BP.tags bp) PC in
      e ← BP.at_ (BP.data bp) way set;
      Some (BPInterface.mk PC (BPEntry.is_taken e PC)
              (if BPEntry.is_taken e PC then BPEntry.getTarget e else addr_add PC 4), bp,
            [BP.tags_read_no_touch PC; BP.tags_set PC; BP.entry_is_taken way set PC]
            ++ (if BPEntry.is_taken e PC then [BP.entry_getTarget way set] else []))
  | (false, _) =>
      Some (BPInterface.mk PC false (addr_add PC 4), bp, [BP.tags_read_no_touch PC])
  end.
Proof.
  unfold BP.get_bp_info_single_lookup, mbind, BP.Exec_bind, BP.call_read_no_touch. simpl.
  destruct (CacheTagArray.read_no_touch (BP.tags bp) PC) as [[] way]; [|done].
  unfold BP.call_set, BP.on_entry. simpl.
  destruct (BP.at_ (BP.data bp) way (CacheTagArray.set (BP.tags bp) PC)) as [e|] eqn:He;
    [|done].
  simpl. destruct (BPEntry.is_taken e PC); [|done]. by rewrite He.
Qed.

(** [update]: the set index, one touching lookup, on a miss the insertion
    followed by [reset] and [update_target] on the entry of the new
    coordinate, and one [update] of the entry at the coordinate. *)
Lemma update_eq bp_upd bp :
  BP.update bp_upd bp =
  let PC := BPInterface.pc bp_upd in
  let taken := BPInterface.is_taken bp_upd in
  let target := BPInterface.target bp_upd in
  let set := CacheTagArray.set (BP.tags bp) PC in
  let '((is_hit, way), c) := CacheTagArray.read (BP.tags bp) PC in
  if (is_hit : bool)
  then e ← BP.at_ (BP.data bp) way set;
       Some ((), BP.mk (BP.store (BP.data bp) way set (BPEntry.update e taken target)) c,
             [BP.tags_set PC; BP.tags_read PC; BP.entry_update way set taken target])
  else let '(way', c') := CacheTagArray.write c PC in
       e ← BP.at_ (BP.data bp) way' set;
       Some ((), BP.mk (BP.store (BP.data bp) way' set
                          (BPEntry.update
                             (BPEntry.update_target (BPEntry.reset e) target) taken target)) c',
             [BP.tags_set PC; BP.tags_read PC; BP.tags_write PC; BP.entry_reset way' set;
              BP.entry_update_target way' set target; BP.entry_update way' set taken target]).
Proof.
  destruct bp_upd as [PC taken target]. cbv zeta.
  cbn [BPInterface.pc BPInterface.is_taken BPInterface.target].
  unfold BP.update, mbind, BP.Exec_bind, BP.call_set, BP.call_read.
  cbn [BPInterface.pc BPInterface.is_taken BPInterface.target].
  destruct (CacheTagArray.read (BP.tags bp) PC) as [[[] way] c]; cbn.
  - unfold BP.in_entry. cbn.
    by destruct (BP.at_ (BP.data bp) way (CacheTagArray.set (BP.tags bp) PC)).
  - unfold BP.call_write. cbn.
    destruct (CacheTagArray.write c PC) as [way' c']. cbn.
    unfold BP.in_entry. cbn.
    destruct (BP.at_ (BP.data bp) way' (CacheTagArray.set (BP.tags bp) PC)) as [e|] eqn:He;
      [|done].
    cbn. erewrite at_store_eq by done. cbn.
    erewrite at_store_eq by (by eapply at_store_eq). cbn.
    by rewrite !store_store.
Qed.

Lemma read_hit c a w :
  CacheTagArray.read_no_touch c a = (true, w) →
  (CacheTagArray.read c a).1 = (true, w).
Proof. by rewrite read_fst. Qed.

Lemma read_miss c a w :
  CacheTagArray.read_no_touch c a = (false, w) → CacheTagArray.read c a = ((false, w), c).
Proof. intros Hr. unfold CacheTagArray.read. by rewrite Hr. Qed.

Lemma BP_wf_store bp w s e c' :
  BP_wf bp → geometry c' = geometry (BP.tags bp) → wf_tags c' →
  BP_wf (BP.mk (BP.store (BP.data bp) w s e) c').
Proof.
  intros (_ & Hways & Hcols & Hrows) Hg Hwf.
  destruct (store_shape (BP.data bp) w s e _ _ Hcols Hrows) as [Hcols' Hrows'].
  repeat split; simpl; try apply Hwf.
  - by rewrite (geometry_ways _ _ Hg).
  - by rewrite (geometry_ways _ _ Hg).
  - by rewrite (geometry_num_sets _ _ Hg).
Qed.

(** A hit coordinate lies inside the entry array. *)
Lemma hit_entry bp PC w :
  BP_wf bp → CacheTagArray.read_no_touch (BP.tags bp) PC = (true, w) →
  w < CacheTagArray.ways (BP.tags bp) ∧
  CacheTagArray.set (BP.tags bp) PC < CacheTagArray.num_sets (BP.tags bp) ∧
  is_Some (BP.at_ (BP.data bp) w (CacheTagArray.set (BP.tags bp) PC)).
Proof.
  intros Hwf Hr. pose proof Hwf as (Ht & _).
  apply peek_hit in Hr; [|done]. apply resident_lt in Hr as [??]; [|done].
  split; [done|]. split; [done|]. by apply at_is_Some.
Qed.

Lemma update_hit bp bp_upd w :
  BP_wf bp →
  CacheTagArray.read_no_touch (BP.tags bp) (BPInterface.pc bp_upd) = (true, w) →
  let PC := BPInterface.pc bp_upd in
  let taken := BPInterface.is_taken bp_upd in
  let target := BPInterface.target bp_upd in
  let set := CacheTagArray.set (BP.tags bp) PC in
  let c := (CacheTagArray.read (BP.tags bp) PC).2 in
  ∃ e, BP.at_ (BP.data bp) w set = Some e ∧
    BP.update bp_upd bp =
      Some ((), BP.mk (BP.store (BP.data bp) w set (BPEntry.update e taken target)) c,
            [BP.tags_set PC; BP.tags_read PC; BP.entry_update w set taken target]) ∧
    BP_wf (BP.mk (BP.store (BP.data bp) w set (BPEntry.update e taken target)) c).
Proof.
  intros Hwf Hr. cbv zeta.
  destruct (hit_entry bp _ w Hwf Hr) as (_ & _ & [e He]).
  exists e. split; [done|]. split.
  - rewrite update_eq. cbv zeta.
    pose proof (read_hit _ _ _ Hr) as Hr1.
    destruct (CacheTagArray.read (BP.tags bp) (BPInterface.pc bp_upd)) as [[hit w'] c].
    simpl in Hr1. simplify_eq. by rewrite He.
  - apply BP_wf_store; [done|apply read_geometry|apply read_wf, Hwf].
Qed.

Lemma update_miss bp bp_upd :
  BP_wf bp → CacheTagArray.num_sets (BP.tags bp) ≠ 0 →
  CacheTagArray.read_no_touch (BP.tags bp) (BPInterface.pc bp_upd) = (false, miss_way) →
  let PC := BPInterface.pc bp_upd in
  let taken := BPInterface.is_taken bp_upd in
  let target := BPInterface.target bp_upd in
  let set := CacheTagArray.set (BP.tags bp) PC in
  ∃ w c e, CacheTagArray.write (BP.tags bp) PC = (w, c) ∧
    BP.at_ (BP.data bp) w set = Some e ∧
    BP.update bp_upd bp =
      Some ((), BP.mk (BP.store (BP.data bp) w set
                         (BPEntry.update
                            (BPEntry.update_target (BPEntry.reset e) target) taken target)) c,
            [BP.tags_set PC; BP.tags_read PC; BP.tags_write PC; BP.entry_reset w set;
             BP.entry_update_target w set target; BP.entry_update w set taken target]) ∧
    BP_wf (BP.mk (BP.store (BP.data bp) w set
                    (BPEntry.update
                       (BPEntry.update_target (BPEntry.reset e) target) taken target)) c) ∧
    w < CacheTagArray.ways (BP.tags bp) ∧
    geometry c = geometry (BP.tags bp) ∧
    ∀ w' s t, resident c w' s t ↔
      (w' = w ∧ s = set ∧ t = CacheTagArray.tag (BP.tags bp) PC) ∨
      (resident (BP.tags bp) w' s t ∧ ¬ (w' = w ∧ s = set)).
Proof.
  intros Hwf Hsets Hr. cbv zeta. pose proof Hwf as (Ht & Hways & _).
  destruct (peek_cases (BP.tags bp) (BPInterface.pc bp_upd)) as [(w' & Hr' & _)|[_ Hmiss]];
    [by rewrite Hr in Hr'|].
  destruct (write_miss _ _ Ht Hways Hsets (Hmiss Ht)) as (w & c & Hw & Hlt & Hg & Hwf' & Hres).
  destruct (at_is_Some bp w (CacheTagArray.set (BP.tags bp) (BPInterface.pc bp_upd)))
    as [e He]; [done..|by apply set_lt|].
  exists w, c, e. split; [done|]. split; [done|]. split; [|split; [|done]].
  - rewrite update_eq. cbv zeta. rewrite (read_miss _ _ _ Hr), Hw. by rewrite He.
  - by apply BP_wf_store.
Qed.

(** The constructor *)
Lemma new_spec size ways bits bp :
  BP.new size ways bits = Some bp →
  ways ≠ 0 ∧ BP_wf bp ∧
  BP.tags bp = CacheTagArray.new size ways 4 bits ∧
  BP.data bp = replicate (N.to_nat ways) (replicate (N.to_nat (size / ways)) BPEntry.init).
Proof.
  unfold BP.new. destruct (decide (ways = 0)); [done|]. intros [= <-]. simpl.
  split; [done|]. split; [|done]. split; [apply new_wf|]. split; [done|]. split; simpl.
  - by rewrite length_replicate.
  - apply Forall_replicate. by rewrite length_replicate.
Qed.

End TableFacts.

(** ** Training: [BP<T>::update] *)

Section OnMips32.
#[local] Existing Instance mips32.

Lemma fresh_two_bit_new : BP.new 8 2 32 = Some fresh_two_bit.
Proof. reflexivity. Qed.

End OnMips32.

Section Update.
Context `{Platform} {T : Type} `{BPEntry.Ops T}.
Implicit Types (bp : BP.table (T := T)).

(** C1, amended. On every well-formed table with at least one row per
    column, [update] returns, and makes one touching lookup of the event's
    address.  On a hit it trains the entry at the returned way and the
    address's set.  On a miss it takes the way the tag array's [write]
    returns, resets the entry there, seeds its target with the event's
    target and then trains it.  In both cases the entry's
    [update( taken, target)] is called exactly once, the entry array holds
    the trained entry at that coordinate afterwards, and every other entry
    is as it was. *)
Theorem update_looks_up_allocates_and_trains_once bp bp_upd :
  BP_wf bp → CacheTagArray.num_sets (BP.tags bp) ≠ 0 →
  let PC := BPInterface.pc bp_upd in
  let taken := BPInterface.is_taken bp_upd in
  let target := BPInterface.target bp_upd in
  let set := CacheTagArray.set (BP.tags bp) PC in
  let r := CacheTagArray.read (BP.tags bp) PC in
  ∃ bp' cs way e,
    BP.update bp_upd bp = Some ((), bp', cs) ∧
    BP.at_ (BP.data bp) way set = Some e ∧
    (if r.1.1
     then way = r.1.2 ∧ BP.tags bp' = r.2 ∧
          cs = [BP.tags_set PC; BP.tags_read PC; BP.entry_update way set taken target] ∧
          BP.at_ (BP.data bp') way set = Some (BPEntry.update e taken target)
     else way = (CacheTagArray.write r.2 PC).1 ∧
          BP.tags bp' = (CacheTagArray.write r.2 PC).2 ∧
          cs = [BP.tags_set PC; BP.tags_read PC; BP.tags_write PC; BP.entry_reset way set;
                BP.entry_update_target way set target;
                BP.entry_update way set taken target] ∧
          BP.at_ (BP.data bp') way set =
            Some (BPEntry.update
                    (BPEntry.update_target (BPEntry.reset e) target) taken target)) ∧
    (∀ w s, ¬ (w = way ∧ s = set) →
       BP.at_ (BP.data bp') w s = BP.at_ (BP.data bp) w s) ∧
    length (filter is_train cs) = 1%nat.
Proof.
  intros Hwf Hsets. cbv zeta.
  destruct (peek_cases (BP.tags bp) (BPInterface.pc bp_upd)) as [(w & Hr & _)|[Hr _]].
  - destruct (update_hit bp bp_upd w Hwf Hr) as (e & He & Hu & _).
    pose proof (read_hit _ _ _ Hr) as Hr1.
    do 2 eexists. exists w, e. split; [exact Hu|]. split; [exact He|].
    rewrite Hr1. cbn [fst snd BP.tags BP.data]. split; [|split; [|done]].
    + repeat split. by eapply at_store_eq.
    + intros w' s' Hne. by apply at_store_ne.
  - destruct (update_miss bp bp_upd Hwf Hsets Hr) as (w & c & e & Hw & He & Hu & _).
    do 2 eexists. exists w, e. split; [exact Hu|]. split; [exact He|].
    rewrite (read_miss _ _ _ Hr). cbn [fst snd BP.tags BP.data]. rewrite Hw.
    cbn [fst snd]. split; [|split; [|done]].
    + repeat split. by eapply at_store_eq.
    + intros w' s' Hne. by apply at_store_ne.
Qed.

End Update.

Section OnMips32.
#[local] Existing Instance mips32.

Lemma update_looks_up_allocates_and_trains_once_witness :
  BP_wf fresh_two_bit ∧
  CacheTagArray.num_sets (BP.tags fresh_two_bit) ≠ 0 ∧
  ∃ bp',
    BP.update (BPInterface.mk 0x1000 true 0x2000) fresh_two_bit =
      Some ((), bp',
            [BP.tags_set 0x1000; BP.tags_read 0x1000; BP.tags_write 0x1000;
             BP.entry_reset 0 0; BP.entry_update_target 0 0 0x2000;
             BP.entry_update 0 0 true 0x2000]) ∧
    BP.tags bp' = (CacheTagArray.write (CacheTagArray.new 8 2 4 32) 0x1000).2 ∧
    BP.at_ (BP.data bp') 0 0 =
      Some (BPEntry.update (BPEntry.update_target BPEntry.init 0x2000) true 0x2000) ∧
    BP.at_ (BP.data bp') 1 0 = Some BPEntry.init.
Proof.
  assert (BP_wf fresh_two_bit) as Hwf by apply (new_spec 8 2 32), fresh_two_bit_new.
  assert (CacheTagArray.num_sets (BP.tags fresh_two_bit) ≠ 0) as Hsets by (by vm_compute).
  split; [exact Hwf|]. split; [exact Hsets|].
  destruct (update_looks_up_allocates_and_trains_once fresh_two_bit
              (BPInterface.mk 0x1000 true 0x2000) Hwf Hsets)
    as (bp' & cs & way & e & Hu & He & Hcase & Hframe & _).
  assert (CacheTagArray.read (BP.tags fresh_two_bit) 0x1000
          = ((false, miss_way), CacheTagArray.new 8 2 4 32)) as Hr by reflexivity.
  cbn [BPInterface.pc BPInterface.is_taken BPInterface.target] in Hcase, Hframe, He.
  rewrite Hr in Hcase. cbn [fst snd] in Hcase.
  destruct Hcase as (Hway & Htags & Hcs & Hat).
  assert (way = 0) as -> by (rewrite Hway; reflexivity).
  assert (CacheTagArray.set (BP.tags fresh_two_bit) 0x1000 = 0) as Hset by reflexivity.
  rewrite Hset in Hcs, Hat, He, Hframe.
  assert (e = BPEntry.init) as ->
    by (vm_compute in He; injection He as <-; reflexivity).
  exists bp'. rewrite Hcs in Hu. split; [exact Hu|]. split; [exact Htags|].
  split; [exact Hat|]. rewrite Hframe; [reflexivity|]. intros [? _]. discriminate.
Defined.

End OnMips32.

(** ** The factory: lookup by name *)

Section FactoryFacts.
Context `{Platform}.

(** The map in key order, as [std::map] iterates it. *)
Lemma map_sorted :
  BPFactory.map =
  [ ("adaptive_two_level"%string, BPFactory.create_with BPFactory.adaptive);
    ("dynamic_one_bit"%string, BPFactory.create_with BPFactory.one_bit);
    ("dynamic_two_bit"%string, BPFactory.create_with BPFactory.two_bit);
    ("static_always_taken"%string, BPFactory.create_with BPFactory.always_taken);
    ("static_backward_jumps"%string, BPFactory.create_with BPFactory.backward_jumps) ].
Proof. reflexivity. Qed.

Lemma map_find_cases name :
  match BPFactory.map_find name BPFactory.map with
  | Some creator =>
      name ∈ BPFactory.names ∧
      ((name = "adaptive_two_level"%string ∧
        creator = BPFactory.create_with BPFactory.adaptive) ∨
       (name = "dynamic_one_bit"%string ∧
        creator = BPFactory.create_with BPFactory.one_bit) ∨
       (name = "dynamic_two_bit"%string ∧
        creator = BPFactory.create_with BPFactory.two_bit) ∨
       (name = "static_always_taken"%string ∧
        creator = BPFactory.create_with BPFactory.always_taken) ∨
       (name = "static_backward_jumps"%string ∧
        creator = BPFactory.create_with BPFactory.backward_jumps))
  | None => name ∉ BPFactory.names
  end.
Proof.
  rewrite map_sorted. unfold BPFactory.names. cbn [BPFactory.map_find].
  repeat match goal with
         | |- context [String.eqb name ?k] =>
             destruct (String.eqb_spec name k) as [->|?];
             [split; [set_solver|naive_solver]|]
         end.
  rewrite !not_elem_of_cons. repeat split; try done. apply not_elem_of_nil.
Qed.

Lemma create_Returned name size ways bits h :
  BPFactory.create name size ways bits = BPFactory.Returned h →
  name ∈ BPFactory.names ∧
  ((∃ bp, BP.new size ways bits = Some bp ∧ h = BPFactory.always_taken bp) ∨
   (∃ bp, BP.new size ways bits = Some bp ∧ h = BPFactory.backward_jumps bp) ∨
   (∃ bp, BP.new size ways bits = Some bp ∧ h = BPFactory.one_bit bp) ∨
   (∃ bp, BP.new size ways bits = Some bp ∧ h = BPFactory.two_bit bp) ∨
   (∃ bp, BP.new size ways bits = Some bp ∧ h = BPFactory.adaptive bp)).
Proof.
  unfold BPFactory.create. pose proof (map_find_cases name) as Hc.
  destruct (BPFactory.map_find name BPFactory.map) as [creator|]; [|done].
  destruct Hc as [Hin Hc]. intros Hr. split; [done|].
  destruct Hc as [[_ ->]|[[_ ->]|[[_ ->]|[[_ ->]|[_ ->]]]]];
    unfold BPFactory.create_with in Hr;
    destruct (BP.new size ways bits) as [bp|]; simpl in Hr; simplify_eq; naive_solver.
Qed.

Lemma create_recognized name size ways bits :
  name ∈ BPFactory.names → ways ≠ 0 →
  ∃ h, BPFactory.create name size ways bits = BPFactory.Returned h.
Proof.
  intros Hin Hways. unfold BPFactory.create. pose proof (map_find_cases name) as Hc.
  destruct (BPFactory.map_find name BPFactory.map) as [creator|]; [|done].
  destruct Hc as [_ [[_ ->]|[[_ ->]|[[_ ->]|[[_ ->]|[_ ->]]]]]];
    unfold BPFactory.create_with, BP.new; destruct (decide (ways = 0)); try done;
    simpl; eauto.
Qed.

End FactoryFacts.

(** ** Queries *)

Section Queries.
Context `{Platform} {T : Type} `{BPEntry.Ops T}.
Implicit Types (bp : BP.table (T := T)).

Lemma fresh_peek size ways bits bp a :
  BP.new size ways bits = Some bp →
  CacheTagArray.read_no_touch (BP.tags bp) a = (false, miss_way).
Proof.
  intros (_ & _ & -> & _)%new_spec.
  destruct (peek_cases (CacheTagArray.new size ways 4 bits) a) as [(w & _ & Hres)|[? _]];
    [|done].
  by apply new_no_resident in Hres.
Qed.

Lemma fresh_queries size ways bits bp a :
  BP.new size ways bits = Some bp →
  BP.is_taken a bp = Some (false, bp, [BP.tags_read_no_touch a]) ∧
  BP.get_target a bp = Some (addr_add a 4, bp, [BP.tags_read_no_touch a]) ∧
  BP.get_bp_info a bp =
    Some (BPInterface.mk a false (addr_add a 4), bp,
          [BP.tags_read_no_touch a; BP.tags_read_no_touch a]).
Proof.
  intros Hnew. rewrite is_taken_eq, get_target_eq, get_bp_info_eq.
  by rewrite (fresh_peek _ _ _ _ a Hnew).
Qed.

(** C7. [get_bp_info( PC)] returns [PC] with what [is_taken( PC)] and
    [get_target( PC)] return, leaves the table as it was, and agrees in
    value and table with the form that makes a single peek lookup and
    derives direction and target from it; that form makes exactly one
    [read_no_touch] call and no mutating call.  Value and table agree on
    every table, the returning on every well-formed one. *)
Theorem get_bp_info_is_single_peek bp PC :
  BP.result (BP.get_bp_info PC bp) = BP.result (BP.get_bp_info_single_lookup PC bp) ∧
  (BP_wf bp →
   ∃ taken target cs1 cs2 cs3 cs4,
    BP.is_taken PC bp = Some (taken, bp, cs1) ∧
    BP.get_target PC bp = Some (target, bp, cs2) ∧
    BP.get_bp_info PC bp = Some (BPInterface.mk PC taken target, bp, cs3) ∧
    BP.get_bp_info_single_lookup PC bp = Some (BPInterface.mk PC taken target, bp, cs4) ∧
    length (filter is_peek cs4) = 1%nat ∧
    filter is_mutating cs3 = [] ∧ filter is_mutating cs4 = []).
Proof.
  rewrite is_taken_eq, get_target_eq, get_bp_info_eq, get_bp_info_single_lookup_eq.
  destruct (CacheTagArray.read_no_touch (BP.tags bp) PC) as [[] w] eqn:Hr.
  - split.
    + cbv zeta.
      by destruct (BP.at_ (BP.data bp) w (CacheTagArray.set (BP.tags bp) PC)).
    + intros Hwf.
      destruct (hit_entry bp PC w Hwf Hr) as (_ & _ & [e He]). cbv zeta. rewrite He. simpl.
      do 6 eexists. do 4 (split; [done|]). by destruct (BPEntry.is_taken e PC).
  - split; [done|]. intros _. do 6 eexists. by do 4 (split; [done|]).
Qed.

End Queries.

Section OnMips32.
#[local] Existing Instance mips32.

Lemma trained_two_bit_wf : BP_wf trained_two_bit.
Proof.
  assert (BP_wf fresh_two_bit) as Hwf by apply (new_spec 8 2 32), fresh_two_bit_new.
  destruct (update_miss fresh_two_bit (BPInterface.mk 0x1000 true 0x2000) Hwf)
    as (w & c & e & Hw & He & _ & Hwf' & _); [done..|].
  vm_compute in Hw. vm_compute in He. simplify_eq. exact Hwf'.
Qed.

Lemma get_bp_info_is_single_peek_witness :
  BP_wf trained_two_bit ∧
  BP.get_bp_info 0x1000 trained_two_bit =
    Some (BPInterface.mk 0x1000 true 0x2000, trained_two_bit,
          [BP.tags_read_no_touch 0x1000; BP.tags_set 0x1000; BP.entry_is_taken 0 0 0x1000;
           BP.tags_read_no_touch 0x1000; BP.tags_read_no_touch 0x1000; BP.tags_set 0x1000;
           BP.entry_is_taken 0 0 0x1000; BP.tags_set 0x1000; BP.entry_getTarget 0 0]) ∧
  BP.get_bp_info_single_lookup 0x1000 trained_two_bit =
    Some (BPInterface.mk 0x1000 true 0x2000, trained_two_bit,
          [BP.tags_read_no_touch 0x1000; BP.tags_set 0x1000; BP.entry_is_taken 0 0 0x1000;
           BP.entry_getTarget 0 0]).
Proof.
  split; [apply trained_two_bit_wf|].
  destruct (get_bp_info_is_single_peek trained_two_bit 0x1000) as [_ Hq].
  destruct (Hq trained_two_bit_wf)
    as (taken & target & cs1 & cs2 & cs3 & cs4 & _ & _ & H3 & H4 & _).
  split; [rewrite H3|rewrite H4]; vm_compute in H3, H4; by simplify_eq.
Defined.

End OnMips32.

(** ** The factory: construction *)

Section Factory.
Context `{Platform}.

(** C3. On a table that [create] has just returned, whatever the
    algorithm, every address is predicted not taken with the fallthrough
    [a + 4] as target ([+] of [Addr], which is [a + 4] itself unless that
    exceeds the width), and the queries leave the table as constructed.
    Each of the five names gives such a table, for any number of ways other
    than none. *)
Theorem cold_table_predicts_fallthrough name size ways bits a :
  (name ∈ BPFactory.names → ways ≠ 0 →
   ∃ h, BPFactory.create name size ways bits = BPFactory.Returned h) ∧
  (∀ h, BPFactory.create name size ways bits = BPFactory.Returned h →
     BPFactory.is_taken a h = Some (false, h, [BP.tags_read_no_touch a]) ∧
     BPFactory.get_target a h = Some (addr_add a 4, h, [BP.tags_read_no_touch a])) ∧
  (a + 4 < 2 ^ addr_width → addr_add a 4 = a + 4).
Proof.
  split; [apply create_recognized|]. split; [|intros ?; by apply N.mod_small].
  intros h [_ Hc]%create_Returned.
  split;
    destruct Hc as [(bp & Hn & ->)|[(bp & Hn & ->)|[(bp & Hn & ->)|[(bp & Hn & ->)|(bp & Hn & ->)]]]];
    destruct (fresh_queries _ _ _ _ a Hn) as (Ht & Hg & _);
    unfold BPFactory.is_taken, BPFactory.get_target, BPFactory.virtual;
    by rewrite ?Ht, ?Hg.
Qed.

(** C5, amended. A name outside the five registered ones makes [create]
    write the name and the five registered names to [std::cerr] and exit
    with [EXIT_FAILURE]; a registered name with at least one way makes it
    return a handle that answers the three queries at once. *)
Theorem create_unknown_name_exits_known_name_returns name size ways bits :
  (name ∉ BPFactory.names →
   BPFactory.create name size ways bits =
     BPFactory.Exited
       ("ERROR. Invalid branch prediction mode " +:+ name +:+ BPFactory.endl
          +:+ "Supported modes:" +:+ BPFactory.endl
          +:+ BPFactory.tab +:+ "adaptive_two_level" +:+ BPFactory.endl
          +:+ BPFactory.tab +:+ "dynamic_one_bit" +:+ BPFactory.endl
          +:+ BPFactory.tab +:+ "dynamic_two_bit" +:+ BPFactory.endl
          +:+ BPFactory.tab +:+ "static_always_taken" +:+ BPFactory.endl
          +:+ BPFactory.tab +:+ "static_backward_jumps" +:+ BPFactory.endl)
       BPFactory.EXIT_FAILURE ∧
   BPFactory.EXIT_FAILURE ≠ 0) ∧
  (name ∈ BPFactory.names → ways ≠ 0 →
   ∃ h, BPFactory.create name size ways bits = BPFactory.Returned h ∧
     ∀ a, ∃ taken target info cs1 cs2 cs3,
       BPFactory.is_taken a h = Some (taken, h, cs1) ∧
       BPFactory.get_target a h = Some (target, h, cs2) ∧
       BPFactory.get_bp_info a h = Some (info, h, cs3)).
Proof.
  split.
  - intros Hname. split; [|done]. unfold BPFactory.create.
    pose proof (map_find_cases name) as Hc.
    destruct (BPFactory.map_find name BPFactory.map); [by destruct Hc|].
    by rewrite map_sorted.
  - intros Hname Hways.
    destruct (create_recognized name size ways bits Hname Hways) as [h Hh].
    exists h. split; [done|]. intros a.
    apply create_Returned in Hh as [_ Hc].
    destruct Hc as [(bp & Hn & ->)|[(bp & Hn & ->)|[(bp & Hn & ->)|[(bp & Hn & ->)|(bp & Hn & ->)]]]];
      destruct (fresh_queries _ _ _ _ a Hn) as (Ht & Hg & Hi);
      unfold BPFactory.is_taken, BPFactory.get_target, BPFactory.get_bp_info,
        BPFactory.virtual;
      rewrite Ht, Hg, Hi; simpl; eauto 10.
Qed.

(** C6, amended. For a registered name and at least one way, [create]
    builds a table whose entry array has [ways] columns of
    [size_in_entries / ways] rows each, the quotient rounded down, next to
    a tag array built with [size_in_entries], [ways], granularity 4 and
    [branch_ip_size_in_bits]; left out, the last argument is 32. *)
Theorem create_shapes_the_table name size ways bits :
  name ∈ BPFactory.names → ways ≠ 0 →
  ∃ h, BPFactory.create name size ways bits = BPFactory.Returned h ∧
    BPFactory.columns h = replicate (N.to_nat ways) (N.to_nat (size / ways)) ∧
    ways * (size / ways) ≤ size < ways * (size / ways + 1) ∧
    geometry (BPFactory.tags h) = (size, ways, 4, bits) ∧
    BPFactory.create_default name size ways = BPFactory.create name size ways 32.
Proof.
  intros Hname Hways.
  destruct (create_recognized name size ways bits Hname Hways) as [h Hh].
  exists h. split; [done|].
  assert (ways * (size / ways) ≤ size < ways * (size / ways + 1)) as Hdiv.
  { pose proof (N.div_mod size ways Hways) as Hdm.
    pose proof (N.mod_lt size ways Hways) as Hlt.
    revert Hdm Hlt. generalize (size / ways) (size mod ways). intros q r -> ?. lia. }
  apply create_Returned in Hh as [_ Hc].
  destruct Hc as [(bp & Hn & ->)|[(bp & Hn & ->)|[(bp & Hn & ->)|[(bp & Hn & ->)|(bp & Hn & ->)]]]];
    apply new_spec in Hn as (_ & _ & Ht & Hd); simpl; rewrite Ht, Hd;
    (split; [|done]);
    by rewrite fmap_replicate, length_replicate.
Qed.

End Factory.

Section OnMips32.
#[local] Existing Instance mips32.

Lemma cold_table_predicts_fallthrough_witness :
  ∃ h, BPFactory.create "dynamic_two_bit" 128 4 32 = BPFactory.Returned h ∧
    BPFactory.is_taken 0x400100 h = Some (false, h, [BP.tags_read_no_touch 0x400100]) ∧
    BPFactory.get_target 0x400100 h = Some (0x400104, h, [BP.tags_read_no_touch 0x400100]).
Proof.
  eexists. split; [reflexivity|].
  destruct (cold_table_predicts_fallthrough "dynamic_two_bit" 128 4 32 0x400100)
    as (_ & Hcold & _).
  destruct (Hcold _ eq_refl) as [Ht Hg].
  split; [exact Ht|exact Hg].
Defined.

Lemma create_unknown_name_exits_known_name_returns_witness :
("bogus_name"%string ∉ BPFactory.names) ∧
  BPFactory.create "bogus_name" 64 4 32 =
    BPFactory.Exited
      ("ERROR. Invalid branch prediction mode " +:+ "bogus_name" +:+ BPFactory.endl
         +:+ "Supported modes:" +:+ BPFactory.endl
         +:+ BPFactory.tab +:+ "adaptive_two_level" +:+ BPFactory.endl
         +:+ BPFactory.tab +:+ "dynamic_one_bit" +:+ BPFactory.endl
         +:+ BPFactory.tab +:+ "dynamic_two_bit" +:+ BPFactory.endl
         +:+ BPFactory.tab +:+ "static_always_taken" +:+ BPFactory.endl
         +:+ BPFactory.tab +:+ "static_backward_jumps" +:+ BPFactory.endl) 1 ∧
  "dynamic_two_bit"%string ∈ BPFactory.names ∧ (4 : N) ≠ 0 ∧
  ∃ h, BPFactory.create "dynamic_two_bit" 128 4 32 = BPFactory.Returned h.
Proof.
  assert ("bogus_name"%string ∉ BPFactory.names) as Hno by by_decide.
  assert ("dynamic_two_bit"%string ∈ BPFactory.names) as Hyes by by_decide.
  assert ((4 : N) ≠ 0) as H4 by lia.
  split; [done|]. split; [|split; [done|split; [done|]]].
  - destruct (create_unknown_name_exits_known_name_returns "bogus_name" 64 4 32) as [Hx _].
    apply (Hx Hno).
  - destruct (create_unknown_name_exits_known_name_returns "dynamic_two_bit" 128 4 32)
      as [_ Hr].
    destruct (Hr Hyes H4) as (h & Hh & _). by exists h.
Defined.

(** With no way at all, [size_in_entries / ways] divides by zero and no
    handle comes back, known name or not. *)
Lemma create_known_name_without_ways_returns_nothing :
  "dynamic_two_bit"%string ∈ BPFactory.names ∧
  BPFactory.create "dynamic_two_bit" 128 0 32 = BPFactory.Undefined.
Proof. split; [by_decide|reflexivity]. Qed.

Lemma create_shapes_the_table_witness :
  "dynamic_two_bit"%string ∈ BPFactory.names ∧ (3 : N) ≠ 0 ∧
  ∃ h, BPFactory.create "dynamic_two_bit" 64 3 32 = BPFactory.Returned h ∧
    BPFactory.columns h = [21; 21; 21]%nat ∧
    geometry (BPFactory.tags h) = (64, 3, 4, 32).
Proof.
  assert ("dynamic_two_bit"%string ∈ BPFactory.names) as Hyes by by_decide.
  assert ((3 : N) ≠ 0) as H3 by lia.
  split; [done|]. split; [done|].
  destruct (create_shapes_the_table "dynamic_two_bit" 64 3 32 Hyes H3)
    as (h & Hh & Hc & _ & Hg & _).
  exists h. split; [done|]. split; [|done]. rewrite Hc. reflexivity.
Defined.

(** With [ways = 0] there is no table to have a shape. *)
Lemma create_without_ways_builds_no_table :
  "static_always_taken"%string ∈ BPFactory.names ∧
  ∀ h, BPFactory.create "static_always_taken" 64 0 32 ≠ BPFactory.Returned h.
Proof. split; [by_decide|done]. Qed.

End OnMips32.

(** ** Sequences of calls *)

Section Runs.
Context `{Platform} {T : Type} `{BPEntry.Ops T}.
Implicit Types (bp : BP.table (T := T)) (c : CacheTagArray.state).

Lemma run_cons o ops bp :
  BP.run (o :: ops) bp =
  match BP.step o bp with
  | Some (_, bp', cs) =>
      match BP.run ops bp' with
      | Some (r, bp'', cs') => Some (r, bp'', cs ++ cs')
      | None => None
      end
  | None => None
  end.
Proof. reflexivity. Qed.

Lemma peek_after_read c a b :
  wf_tags c →
  CacheTagArray.read_no_touch (CacheTagArray.read c a).2 b = CacheTagArray.read_no_touch c b.
Proof.
  intros Hwf. pose proof (read_wf c a Hwf) as Hwf'. pose proof (read_geometry c a) as Hg.
  destruct (peek_cases c b) as [(w & -> & Hres)|[-> Hmiss]].
  - apply peek_hit; [done|]. rewrite (geometry_set _ _ _ Hg), (geometry_tag _ _ _ Hg).
    by apply read_resident.
  - destruct (peek_cases (CacheTagArray.read c a).2 b) as [(w & _ & Hres)|[-> _]]; [|done].
    rewrite (geometry_set _ _ _ Hg), (geometry_tag _ _ _ Hg) in Hres.
    apply read_resident in Hres. by apply Hmiss in Hres.
Qed.

(** A query makes no mutating call and leaves the table as it was. *)
Lemma query_step bp o :
  BP_wf bp → is_query o →
  ∃ cs, BP.step o bp = Some ((), bp, cs) ∧ filter is_mutating cs = [].
Proof.
  intros Hwf Hq. destruct o as [PC|PC|PC|?]; [| | |done]; simpl;
    unfold mbind, BP.Exec_bind;
    rewrite ?is_taken_eq, ?get_target_eq, ?get_bp_info_eq;
    (destruct (CacheTagArray.read_no_touch (BP.tags bp) PC) as [[] w] eqn:Hr;
       [|by eauto]);
    destruct (hit_entry bp PC w Hwf Hr) as (_ & _ & [e He]); cbv zeta; rewrite He; simpl;
    eexists; (split; [done|]); by destruct (BPEntry.is_taken e PC).
Qed.

Lemma run_queries bp qs :
  BP_wf bp → Forall is_query qs →
  ∃ cs, BP.run qs bp = Some ((), bp, cs) ∧ filter is_mutating cs = [].
Proof.
  intros Hwf. induction 1 as [|o qs Hq _ IH]; [by eexists|].
  destruct (query_step bp o Hwf Hq) as (cs & Hs & Hcs). destruct IH as (cs' & Hr & Hcs').
  exists (cs ++ cs'). rewrite run_cons, Hs, Hr. split; [done|].
  by rewrite filter_app, Hcs, Hcs'.
Qed.

(** After [update], the event's address hits, and its coordinate holds the
    trained entry. *)
Lemma update_then_peek bp bp_upd :
  BP_wf bp → CacheTagArray.num_sets (BP.tags bp) ≠ 0 →
  let PC := BPInterface.pc bp_upd in
  ∃ bp' cs w e0,
    BP.update bp_upd bp = Some ((), bp', cs) ∧ BP_wf bp' ∧
    geometry (BP.tags bp') = geometry (BP.tags bp) ∧
    trains_from bp bp_upd e0 ∧
    CacheTagArray.read_no_touch (BP.tags bp') PC = (true, w) ∧
    BP.at_ (BP.data bp') w (CacheTagArray.set (BP.tags bp') PC) =
      Some (BPEntry.update e0 (BPInterface.is_taken bp_upd) (BPInterface.target bp_upd)).
Proof.
  intros Hwf Hsets. cbv zeta. unfold trains_from.
  destruct (peek_cases (BP.tags bp) (BPInterface.pc bp_upd)) as [(w & Hr & _)|[Hr _]].
  - destruct (update_hit bp bp_upd w Hwf Hr) as (e & He & Hu & Hwf').
    rewrite Hr. do 2 eexists. exists w, e. split; [done|]. split; [done|]. cbn [BP.tags BP.data].
    pose proof (read_geometry (BP.tags bp) (BPInterface.pc bp_upd)) as Hg.
    split; [done|]. split; [done|]. split.
    + rewrite peek_after_read; [done|apply Hwf].
    + rewrite (geometry_set _ _ _ Hg). by eapply at_store_eq.
  - destruct (update_miss bp bp_upd Hwf Hsets Hr)
      as (w & c & e & Hw & He & Hu & Hwf' & Hlt & Hg & Hres).
    rewrite Hr. do 2 eexists. exists w, (BPEntry.update_target (BPEntry.reset e)
                                           (BPInterface.target bp_upd)).
    split; [done|]. split; [done|]. cbn [BP.tags BP.data]. split; [done|]. split; [by eauto|]. split.
    + apply peek_hit; [apply Hwf'|]. rewrite (geometry_set _ _ _ Hg), (geometry_tag _ _ _ Hg).
      apply Hres. by left.
    + rewrite (geometry_set _ _ _ Hg). by eapply at_store_eq.
Qed.

(** What the queries answer for an address that hits. *)
Lemma queries_on_hit bp PC w e :
  CacheTagArray.read_no_touch (BP.tags bp) PC = (true, w) →
  BP.at_ (BP.data bp) w (CacheTagArray.set (BP.tags bp) PC) = Some e →
  ∃ cs1 cs2,
    BP.is_taken PC bp = Some (BPEntry.is_taken e PC, bp, cs1) ∧
    BP.get_target PC bp =
      Some (if BPEntry.is_taken e PC then BPEntry.getTarget e else addr_add PC 4, bp, cs2).
Proof.
  intros Hr He. rewrite is_taken_eq, get_target_eq, Hr. cbv zeta. rewrite He. simpl. eauto.
Qed.

Lemma queries_on_miss bp PC w :
  CacheTagArray.read_no_touch (BP.tags bp) PC = (false, w) →
  BP.is_taken PC bp = Some (false, bp, [BP.tags_read_no_touch PC]) ∧
  BP.get_target PC bp = Some (addr_add PC 4, bp, [BP.tags_read_no_touch PC]).
Proof. intros Hr. by rewrite is_taken_eq, get_target_eq, Hr. Qed.

End Runs.

(** ** Train, then query *)

Section TrainThenQuery.
Context `{Platform}.

Lemma taken_update_predicts {T : Type} `{BPEntry.Ops T} (bp : BP.table (T := T)) a t :
  BP_wf bp → CacheTagArray.num_sets (BP.tags bp) ≠ 0 →
  (∀ e0, trains_from bp (BPInterface.mk a true t) e0 →
     BPEntry.is_taken (BPEntry.update e0 true t) a = true ∧
     BPEntry.getTarget (BPEntry.update e0 true t) = t) →
  predicted_taken_after_update bp a t.
Proof.
  intros Hwf Hsets Hentry.
  destruct (update_then_peek bp (BPInterface.mk a true t) Hwf Hsets)
    as (bp' & cs & w & e0 & Hu & Hwf' & _ & Hfrom & Hr & He).
  exists bp', cs. split; [done|]. intros qs Hqs.
  destruct (run_queries bp' qs Hwf' Hqs) as (cs' & Hrun & _).
  destruct (queries_on_hit bp' a w _ Hr He) as (cs1 & cs2 & Ht & Hg).
  destruct (Hentry e0 Hfrom) as [Htaken Htarget]. simpl in *.
  rewrite Htaken in Ht, Hg. rewrite Htarget in Hg. eauto 10.
Qed.

Lemma State_update_taken s :
  s ≠ BPEntry.SNT → BPEntry.State_is_taken (BPEntry.State_update s true) = true.
Proof. by destruct s. Qed.


End TrainThenQuery.

Section OnMips32.
#[local] Existing Instance mips32.

Lemma trained_adaptive_wf : BP_wf trained_adaptive.
Proof.
  assert (BP.new (T := BPEntry.BPEntryAdaptive 2) 8 2 32
          = Some (BP.mk (replicate 2 (replicate 4 BPEntry.init))
                    (CacheTagArray.new 8 2 4 32))) as Hnew by reflexivity.
  apply new_spec in Hnew as (_ & Hwf & _).
  destruct (update_miss _ (BPInterface.mk 0x1000 true 0x2000) Hwf)
    as (w & c & e & Hw & _ & _ & Hwf' & _ & Hg & _); [done..|].
  assert (c = (CacheTagArray.write (CacheTagArray.new 8 2 4 32) 0x1000).2) as Hc.
  { cbn [BP.tags BPInterface.pc] in Hw. by rewrite Hw. }
  destruct Hwf' as [Htags _]. cbn [BP.tags] in Htags, Hg. rewrite Hc in Htags, Hg.
  by apply (BP_wf_store _ 0 0 _ _ Hwf).
Qed.

(** The table [trained_adaptive] is the one that three taken branches at
    0x1000 leave. *)
Lemma trained_adaptive_run :
  ∃ bp0 cs,
    BP.new (T := BPEntry.BPEntryAdaptive 2) 8 2 32 = Some bp0 ∧
    BP.run [BP.do_update (BPInterface.mk 0x1000 true 0x2000);
            BP.do_update (BPInterface.mk 0x1000 true 0x2000);
            BP.do_update (BPInterface.mk 0x1000 true 0x2000)] bp0
      = Some ((), trained_adaptive, cs).
Proof. do 2 eexists. split; [reflexivity|]. vm_compute. reflexivity. Qed.



End OnMips32.

(** ** The two-bit counter *)

Section TwoBit.
Context `{Platform}.
Implicit Types (bp : BP.table (T := BPEntry.BPEntryTwoBit)).

(** One [update] of a resident address moves its counter by one training
    step. *)
Lemma two_bit_update_hit bp PC s taken t :
  BP_wf bp → CacheTagArray.num_sets (BP.tags bp) ≠ 0 → counter_at bp PC s →
  ∃ bp' cs, BP.update (BPInterface.mk PC taken t) bp = Some ((), bp', cs) ∧
    BP_wf bp' ∧ CacheTagArray.num_sets (BP.tags bp') ≠ 0 ∧
    counter_at bp' PC (BPEntry.State_update s taken).
Proof.
  intros Hwf Hsets (w & e & Hr & He & Hs). subst s.
  destruct (update_then_peek bp (BPInterface.mk PC taken t) Hwf Hsets)
    as (bp' & cs & w' & e0 & Hu & Hwf' & Hg & Hfrom & Hr' & He').
  unfold trains_from in Hfrom. simpl in *. rewrite Hr in Hfrom.
  assert (e0 = e) as -> by congruence.
  exists bp', cs. split; [done|]. split; [done|].
  split; [by rewrite (geometry_num_sets _ _ Hg)|]. by exists w', (BPEntry.update e taken t).
Qed.

(** C8. The TwoBit entry predicts taken exactly in the weakly-taken and
    strongly-taken states; a training step moves the counter one state up
    when taken and one state down when not taken, and leaves it where it is
    at either end.  On a table, an address whose counter is
    strongly-not-taken reaches strongly-taken by three taken updates, stays
    there on a fourth, and moves to weakly-taken, still predicted taken, on
    one not-taken update. *)
Theorem two_bit_counter_saturates :
  (∀ (e : BPEntry.BPEntryTwoBit) PC taken t,
     BPEntry.is_taken e PC = BPEntry.State_is_taken (BPEntry.tb_state e) ∧
     BPEntry.tb_state (BPEntry.update e taken t) =
       BPEntry.State_update (BPEntry.tb_state e) taken) ∧
  (∀ s, BPEntry.State_is_taken s = true ↔ s = BPEntry.WT ∨ s = BPEntry.ST) ∧
  (∀ s s', BPEntry.State_level s = BPEntry.State_level s' → s = s') ∧
  (∀ s, BPEntry.State_level (BPEntry.State_update s true)
          = N.min 3 (BPEntry.State_level s + 1) ∧
        BPEntry.State_level (BPEntry.State_update s false)
          = BPEntry.State_level s - 1) ∧
  (∀ bp PC t1 t2 t3 t4 t5,
     BP_wf bp → CacheTagArray.num_sets (BP.tags bp) ≠ 0 →
     counter_at bp PC BPEntry.SNT →
     ∃ bp3 bp4 bp5 cs3 cs4 cs5 cs,
       BP.run [BP.do_update (BPInterface.mk PC true t1);
               BP.do_update (BPInterface.mk PC true t2);
               BP.do_update (BPInterface.mk PC true t3)] bp = Some ((), bp3, cs3) ∧
       counter_at bp3 PC BPEntry.ST ∧
       BP.update (BPInterface.mk PC true t4) bp3 = Some ((), bp4, cs4) ∧
       counter_at bp4 PC BPEntry.ST ∧
       BP.update (BPInterface.mk PC false t5) bp4 = Some ((), bp5, cs5) ∧
       counter_at bp5 PC BPEntry.WT ∧
       BP.is_taken PC bp5 = Some (true, bp5, cs)).
Proof.
  split; [done|]. split; [intros []; simpl; intuition congruence|].
  split; [by intros [] []|]. split; [by intros []|].
  intros bp PC t1 t2 t3 t4 t5 Hwf Hsets Hc.
  destruct (two_bit_update_hit _ _ _ true t1 Hwf Hsets Hc) as (bp1 & cs1 & Hu1 & Hwf1 & Hs1 & Hc1).
  destruct (two_bit_update_hit _ _ _ true t2 Hwf1 Hs1 Hc1) as (bp2 & cs2 & Hu2 & Hwf2 & Hs2 & Hc2).
  destruct (two_bit_update_hit _ _ _ true t3 Hwf2 Hs2 Hc2) as (bp3 & cs3 & Hu3 & Hwf3 & Hs3 & Hc3).
  destruct (two_bit_update_hit _ _ _ true t4 Hwf3 Hs3 Hc3) as (bp4 & cs4 & Hu4 & Hwf4 & Hs4 & Hc4).
  destruct (two_bit_update_hit _ _ _ false t5 Hwf4 Hs4 Hc4) as (bp5 & cs5 & Hu5 & Hwf5 & Hs5 & Hc5).
  pose proof Hc5 as (w & e & Hr & He & Hst).
  destruct (queries_on_hit bp5 PC w e Hr He) as (c1 & _ & Ht & _).
  exists bp3, bp4, bp5. do 3 eexists. exists c1.
  split.
  { rewrite run_cons. cbn [BP.step]. rewrite Hu1.
    rewrite run_cons. cbn [BP.step]. rewrite Hu2.
    rewrite run_cons. cbn [BP.step]. rewrite Hu3. reflexivity. }
  split; [exact Hc3|]. split; [exact Hu4|]. split; [exact Hc4|].
  split; [exact Hu5|]. split; [exact Hc5|].
  rewrite Ht. simpl. by rewrite Hst.
Qed.

End TwoBit.

Section OnMips32.
#[local] Existing Instance mips32.

Lemma cold_trained_two_bit_wf : BP_wf cold_trained_two_bit.
Proof.
  assert (BP_wf fresh_two_bit) as Hwf by apply (new_spec 8 2 32), fresh_two_bit_new.
  destruct (update_miss fresh_two_bit (BPInterface.mk 0x1000 false 0x2000) Hwf)
    as (w & c & e & Hw & He & _ & Hwf' & _); [done..|].
  vm_compute in Hw. vm_compute in He. simplify_eq. exact Hwf'.
Qed.

Lemma two_bit_counter_saturates_witness :
  BP_wf cold_trained_two_bit ∧
  CacheTagArray.num_sets (BP.tags cold_trained_two_bit) ≠ 0 ∧
  counter_at cold_trained_two_bit 0x1000 BPEntry.SNT ∧
  ∃ bp3 cs3,
    BP.run [BP.do_update (BPInterface.mk 0x1000 true 0x2000);
            BP.do_update (BPInterface.mk 0x1000 true 0x2000);
            BP.do_update (BPInterface.mk 0x1000 true 0x2000)] cold_trained_two_bit
      = Some ((), bp3, cs3) ∧
    counter_at bp3 0x1000 BPEntry.ST.
Proof.
  assert (CacheTagArray.num_sets (BP.tags cold_trained_two_bit) ≠ 0) as Hsets
    by (by vm_compute).
  assert (counter_at cold_trained_two_bit 0x1000 BPEntry.SNT) as Hc.
  { exists 0, (BPEntry.mkTwoBit 0x2000 BPEntry.SNT). by vm_compute. }
  split; [apply cold_trained_two_bit_wf|]. split; [done|]. split; [done|].
  destruct two_bit_counter_saturates as (_ & _ & _ & _ & Hrun).
  destruct (Hrun cold_trained_two_bit 0x1000 0x2000 0x2000 0x2000 0x2000 0x2000
              cold_trained_two_bit_wf Hsets Hc)
    as (bp3 & _ & _ & cs3 & _ & _ & _ & Hr3 & Hc3 & _).
  exists bp3, cs3. split; [exact Hr3|exact Hc3].
Defined.

End OnMips32.

(** ** Peek against touch *)

Section PeekAndTouch.
Context `{Platform} {T : Type} `{BPEntry.Ops T}.
Implicit Types (bp : BP.table (T := T)).

Lemma update_tags bp bp_upd :
  BP_wf bp → CacheTagArray.num_sets (BP.tags bp) ≠ 0 →
  let PC := BPInterface.pc bp_upd in
  let r := CacheTagArray.read (BP.tags bp) PC in
  ∃ bp' cs, BP.update bp_upd bp = Some ((), bp', cs) ∧
    BP.tags_read PC ∈ cs ∧
    BP.tags bp' = (if r.1.1 then r.2 else (CacheTagArray.write r.2 PC).2) ∧
    (r.1.1 = true →
     CacheTagArray.lines (BP.tags bp') =
       alter (CacheTagArray.touch (CacheTagArray.tag (BP.tags bp) PC))
         (N.to_nat (CacheTagArray.set (BP.tags bp) PC)) (CacheTagArray.lines (BP.tags bp))).
Proof.
  intros Hwf Hsets. cbv zeta.
  destruct (peek_cases (BP.tags bp) (BPInterface.pc bp_upd)) as [(w & Hr & _)|[Hr _]].
  - destruct (update_hit bp bp_upd w Hwf Hr) as (e & _ & Hu & _).
    do 2 eexists. split; [done|]. split; [by repeat constructor|].
    cbn [BP.tags]. rewrite (read_hit _ _ _ Hr). split; [done|]. intros _.
    unfold CacheTagArray.read. by rewrite Hr.
  - destruct (update_miss bp bp_upd Hwf Hsets Hr) as (w & c & e & Hw & _ & Hu & _).
    do 2 eexists. split; [done|]. split; [by repeat constructor|].
    cbn [BP.tags]. rewrite (read_miss _ _ _ Hr). cbn [fst snd]. by rewrite Hw.
Qed.

Lemma single_entry_evicts bp a w bp_upd :
  BP_wf bp →
  CacheTagArray.ways (BP.tags bp) = 1 → CacheTagArray.num_sets (BP.tags bp) = 1 →
  CacheTagArray.read_no_touch (BP.tags bp) a = (true, w) →
  CacheTagArray.tag (BP.tags bp) (BPInterface.pc bp_upd) ≠ CacheTagArray.tag (BP.tags bp) a →
  ∃ bp' cs, BP.update bp_upd bp = Some ((), bp', cs) ∧
    BP.tags_write (BPInterface.pc bp_upd) ∈ cs ∧
    CacheTagArray.read_no_touch (BP.tags bp') a = (false, miss_way) ∧
    BP.is_taken a bp' = Some (false, bp', [BP.tags_read_no_touch a]) ∧
    BP.get_target a bp' = Some (addr_add a 4, bp', [BP.tags_read_no_touch a]).
Proof.
  intros Hwf Hways Hsets Ha Hne. pose proof Hwf as (Ht & _).
  assert (CacheTagArray.num_sets (BP.tags bp) ≠ 0) as Hsets' by lia.
  assert (∀ w' s t, resident (BP.tags bp) w' s t → w' = 0 ∧ s = 0) as Honly.
  { intros w' s t [??]%resident_lt; [|done]. lia. }
  apply peek_hit in Ha; [|done]. destruct (Honly _ _ _ Ha) as [-> Hsa].
  destruct (peek_cases (BP.tags bp) (BPInterface.pc bp_upd)) as [(wb & _ & Hb)|[Hb _]].
  { destruct (Honly _ _ _ Hb) as [-> Hsb]. rewrite Hsa in Ha. rewrite Hsb in Hb.
    destruct Hne. by eapply resident_way. }
  destruct (update_miss bp bp_upd Hwf Hsets' Hb)
    as (w' & c & e & Hw & _ & Hu & Hwf' & Hlt & Hg & Hres).
  do 2 eexists. split; [done|]. split; [by repeat constructor|]. cbn [BP.tags].
  assert (CacheTagArray.read_no_touch c a = (false, miss_way)) as Hmiss.
  { destruct (peek_cases c a) as [(w'' & _ & Hra)|[? _]]; [|done].
    rewrite (geometry_set _ _ _ Hg), (geometry_tag _ _ _ Hg) in Hra.
    apply Hres in Hra as [(_ & _ & ?)|[Hra Hn]]; [done|].
    destruct (Honly _ _ _ Hra) as [-> Hsa']. destruct Hn.
    split; [lia|]. rewrite Hsa'. symmetry. unfold CacheTagArray.set. rewrite Hsets.
    apply N.mod_1_r. }
  split; [done|]. by apply (queries_on_miss (BP.mk _ c) a miss_way).
Qed.

(** Two distinct addresses that are multiples of the granularity 4 and fit
    the tag width lie in different lines. *)
Lemma aligned_tags_differ (c : CacheTagArray.state) (a b : Addr) :
  CacheTagArray.line_size c = 4 →
  a mod 4 = 0 → b mod 4 = 0 →
  a < 2 ^ CacheTagArray.addr_size_in_bits c → b < 2 ^ CacheTagArray.addr_size_in_bits c →
  a ≠ b → CacheTagArray.tag c a ≠ CacheTagArray.tag c b.
Proof.
  intros Hline Ha Hb Hla Hlb Hne. unfold CacheTagArray.tag.
  rewrite Hline, !N.mod_small by done. intros Heq. apply Hne.
  rewrite (N.div_mod a 4), (N.div_mod b 4) by done. by rewrite Ha, Hb, Heq.
Qed.


End PeekAndTouch.

Section OnMips32.
#[local] Existing Instance mips32.

Lemma single_entry_table_wf : BP_wf single_entry_table.
Proof.
  assert (BP.new (T := BPEntry.BPEntryOneBit) 1 1 32
          = Some (BP.mk [[BPEntry.init]] (CacheTagArray.new 1 1 4 32))) as Hnew
    by reflexivity.
  apply new_spec in Hnew as (_ & Hwf & _).
  destruct (update_miss _ (BPInterface.mk 0x1000 true 0x2000) Hwf)
    as (w & c & e & Hw & He & _ & Hwf' & _); [done..|].
  vm_compute in Hw. vm_compute in He. simplify_eq. exact Hwf'.
Qed.


End OnMips32.

(** ** Bounds of the entry array *)

Section Bounds.
Context `{Platform} {T : Type} `{BPEntry.Ops T}.
Implicit Types (bp : BP.table (T := T)).

Lemma step_in_bounds bp o :
  BP_wf bp → CacheTagArray.num_sets (BP.tags bp) ≠ 0 →
  ∃ bp' cs, BP.step o bp = Some ((), bp', cs) ∧ BP_wf bp' ∧
    geometry (BP.tags bp') = geometry (BP.tags bp) ∧
    Forall (in_bounds (CacheTagArray.ways (BP.tags bp))
              (CacheTagArray.num_sets (BP.tags bp))) cs.
Proof.
  intros Hwf Hsets. destruct o as [PC|PC|PC|bp_upd]; cbn [BP.step].
  1-3: unfold mbind, BP.Exec_bind;
    rewrite ?is_taken_eq, ?get_target_eq, ?get_bp_info_eq;
    (destruct (CacheTagArray.read_no_touch (BP.tags bp) PC) as [[] w] eqn:Hr;
       [|do 2 eexists; split; [done|]; split; [done|]; split; [done|];
         by repeat constructor]);
    destruct (hit_entry bp PC w Hwf Hr) as (? & ? & [e He]); cbv zeta; rewrite He; simpl;
    do 2 eexists; (split; [done|]); (split; [done|]); (split; [done|]);
    destruct (BPEntry.is_taken e PC); by repeat constructor.
  destruct (peek_cases (BP.tags bp) (BPInterface.pc bp_upd)) as [(w & Hr & _)|[Hr _]].
  - destruct (update_hit bp bp_upd w Hwf Hr) as (e & _ & Hu & Hwf').
    destruct (hit_entry bp _ w Hwf Hr) as (? & ? & _).
    do 2 eexists. split; [done|]. split; [done|]. split; [apply read_geometry|].
    by repeat constructor.
  - destruct (update_miss bp bp_upd Hwf Hsets Hr)
      as (w & c & e & _ & _ & Hu & Hwf' & Hlt & Hg & _).
    pose proof (set_lt (BP.tags bp) (BPInterface.pc bp_upd) Hsets).
    do 2 eexists. split; [done|]. split; [done|]. split; [done|].
    by repeat constructor.
Qed.

Lemma run_in_bounds bp ops :
  BP_wf bp → CacheTagArray.num_sets (BP.tags bp) ≠ 0 →
  ∃ bp' cs, BP.run ops bp = Some ((), bp', cs) ∧ BP_wf bp' ∧
    geometry (BP.tags bp') = geometry (BP.tags bp) ∧
    Forall (in_bounds (CacheTagArray.ways (BP.tags bp))
              (CacheTagArray.num_sets (BP.tags bp))) cs.
Proof.
  revert bp. induction ops as [|o ops IH]; intros bp Hwf Hsets.
  { exists bp, []. split; [done|]. split; [done|]. split; [done|]. constructor. }
  destruct (step_in_bounds bp o Hwf Hsets) as (bp1 & cs1 & Hs & Hwf1 & Hg1 & Hb1).
  destruct (IH bp1 Hwf1) as (bp' & cs & Hr & Hwf' & Hg & Hb).
  { by rewrite (geometry_num_sets _ _ Hg1). }
  exists bp', (cs1 ++ cs). rewrite run_cons, Hs, Hr. split; [done|]. split; [done|].
  split; [by rewrite Hg|]. apply Forall_app. split; [done|].
  by rewrite <- (geometry_ways _ _ Hg1), <- (geometry_num_sets _ _ Hg1).
Qed.

(** C10, amended. A table constructed with at least one way and at least
    as many entries as ways runs every sequence of queries and training
    calls to its end, and every entry it touches on the way lies inside the
    [ways] columns and [size_in_entries / ways] rows.  In every state so
    reached the set index of every address is below
    [size_in_entries / ways], the way of a hit, peeked or touched, is below
    [ways], and so is the way [write] returns after a miss. *)
Theorem entry_accesses_in_bounds size ways bits bp0 ops :
  BP.new size ways bits = Some bp0 → ways ≤ size →
  ∃ bp cs, BP.run ops bp0 = Some ((), bp, cs) ∧
    Forall (in_bounds ways (size / ways)) cs ∧
    ∀ PC,
      CacheTagArray.set (BP.tags bp) PC < size / ways ∧
      (∀ w, CacheTagArray.read_no_touch (BP.tags bp) PC = (true, w) → w < ways) ∧
      (∀ w, (CacheTagArray.read (BP.tags bp) PC).1 = (true, w) → w < ways) ∧
      (CacheTagArray.read_no_touch (BP.tags bp) PC = (false, miss_way) →
       (CacheTagArray.write (BP.tags bp) PC).1 < ways).
Proof.
  intros Hnew Hle. apply new_spec in Hnew as (Hways & Hwf & Ht & _).
  assert (geometry (BP.tags bp0) = (size, ways, 4, bits)) as Hg0 by by rewrite Ht.
  assert (CacheTagArray.ways (BP.tags bp0) = ways) as Hw0 by by rewrite Ht.
  assert (CacheTagArray.num_sets (BP.tags bp0) = size / ways) as Hn0 by by rewrite Ht.
  assert (size / ways ≠ 0) as Hrows.
  { pose proof (N.div_str_pos size ways). lia. }
  destruct (run_in_bounds bp0 ops Hwf) as (bp & cs & Hr & Hwf' & Hg & Hb); [by rewrite Hn0|].
  rewrite Hw0, Hn0 in Hb. exists bp, cs. split; [done|]. split; [done|].
  pose proof (geometry_ways _ _ Hg) as Hw. pose proof (geometry_num_sets _ _ Hg) as Hn.
  rewrite Hw0 in Hw. rewrite Hn0 in Hn. intros PC.
  assert (∀ w, CacheTagArray.read_no_touch (BP.tags bp) PC = (true, w) → w < ways) as Hhit.
  { intros w Hp. destruct (hit_entry bp PC w Hwf' Hp) as (? & _). by rewrite <- Hw. }
  split; [|split; [done|split; [by intros w; rewrite read_fst; apply Hhit|]]].
  - rewrite <- Hn. apply set_lt. by rewrite Hn.
  - intros Hmiss. destruct Hwf' as (Htags & Hw' & _).
    destruct (peek_cases (BP.tags bp) PC) as [(w & Hp & _)|[_ Hno]];
      [by rewrite Hmiss in Hp|].
    destruct (write_miss (BP.tags bp) PC Htags Hw') as (w & c & Hwr & Hlt & _);
      [by rewrite Hn|by apply Hno|].
    rewrite Hwr. simpl. by rewrite <- Hw.
Qed.

End Bounds.

Section OnMips32.
#[local] Existing Instance mips32.

Lemma entry_accesses_in_bounds_witness :
  BP.new 8 2 32 = Some fresh_two_bit ∧ (2 : N) ≤ 8 ∧
  ∃ bp cs,
    BP.run [BP.do_update (BPInterface.mk 0x1000 true 0x2000); BP.do_get_bp_info 0x1000;
            BP.do_update (BPInterface.mk 0x1010 false 0x1020); BP.do_is_taken 0x1010]
      fresh_two_bit = Some ((), bp, cs) ∧
    Forall (in_bounds 2 4) cs.
Proof.
  assert ((2 : N) ≤ 8) as Hle by lia.
  split; [exact fresh_two_bit_new|]. split; [done|].
  destruct (entry_accesses_in_bounds 8 2 32 fresh_two_bit
              [BP.do_update (BPInterface.mk 0x1000 true 0x2000); BP.do_get_bp_info 0x1000;
               BP.do_update (BPInterface.mk 0x1010 false 0x1020); BP.do_is_taken 0x1010]
              fresh_two_bit_new Hle) as (bp & cs & Hr & Hb & _).
  exists bp, cs. split; [exact Hr|exact Hb].
Defined.

(** A table of one entry in two ways has two columns without a row: the
    first training call indexes outside them. *)
Lemma update_of_table_without_rows_is_out_of_bounds :
  ∃ bp0, BP.new (T := BPEntry.BPEntryTwoBit) 1 2 32 = Some bp0 ∧
    BP.data bp0 = [[]; []] ∧
    BP.update (BPInterface.mk 0x1000 true 0x2000) bp0 = None.
Proof. eexists. split; [reflexivity|]. split; reflexivity. Qed.

End OnMips32.

(** ** Addressing and entry storage stay in step *)

Section EntryLaws.
Context `{Platform}.

#[global] Instance AlwaysTaken_laws : BPEntry.Laws BPEntry.BPEntryAlwaysTaken.
Proof. by split. Qed.

#[global] Instance BackwardJumps_laws : BPEntry.Laws BPEntry.BPEntryBackwardJumps.
Proof. by split. Qed.

#[global] Instance OneBit_laws : BPEntry.Laws BPEntry.BPEntryOneBit.
Proof. by split. Qed.

#[global] Instance TwoBit_laws : BPEntry.Laws BPEntry.BPEntryTwoBit.
Proof. by split. Qed.

#[global] Instance Adaptive_laws K : BPEntry.Laws (BPEntry.BPEntryAdaptive K).
Proof. by split. Qed.

End EntryLaws.

Section Synchronised.
Context `{Platform} {T : Type} `{BPEntry.Laws T}.
Implicit Types (bp : BP.table (T := T)) (s : CacheTagArray.state * gmap N T).

Lemma at_without_rows bp w st :
  BP_wf bp → CacheTagArray.num_sets (BP.tags bp) = 0 → BP.at_ (BP.data bp) w st = None.
Proof.
  intros (_ & _ & _ & Hrows) Hn. unfold BP.at_.
  destruct (BP.data bp !! N.to_nat w) as [col|] eqn:Hcol; [|done]. simpl.
  eapply Forall_lookup_1 in Hrows; [|done]. simpl in Hrows.
  apply lookup_ge_None. lia.
Qed.

Lemma update_returns_sets bp bp_upd r :
  BP_wf bp → BP.update bp_upd bp = Some r → CacheTagArray.num_sets (BP.tags bp) ≠ 0.
Proof.
  intros Hwf Hu Hn. rewrite update_eq in Hu. cbv zeta in Hu.
  destruct (CacheTagArray.read (BP.tags bp) (BPInterface.pc bp_upd)) as [[[] w] c].
  - by rewrite at_without_rows in Hu.
  - destruct (CacheTagArray.write c (BPInterface.pc bp_upd)) as [w' c'].
    by rewrite at_without_rows in Hu.
Qed.

Lemma synced_update bp s bp_upd bp' cs :
  synced bp s → BP.update bp_upd bp = Some ((), bp', cs) →
  synced bp' (BP.train_line bp_upd s).
Proof.
  intros (Hwf & Htags & Hsync) Hu. pose proof Hwf as (Ht & _).
  pose proof (update_returns_sets _ _ _ Hwf Hu) as Hsets.
  destruct s as [c m]. simpl in Htags. subst c. unfold BP.train_line. cbn [fst snd].
  destruct (peek_cases (BP.tags bp) (BPInterface.pc bp_upd)) as [(w & Hr & Hres)|[Hr Hmiss]].
  - destruct (update_hit bp bp_upd w Hwf Hr) as (e & He & Hu' & Hwf').
    assert (bp' = BP.mk (BP.store (BP.data bp) w
                           (CacheTagArray.set (BP.tags bp) (BPInterface.pc bp_upd))
                           (BPEntry.update e (BPInterface.is_taken bp_upd)
                              (BPInterface.target bp_upd)))
                        (CacheTagArray.read (BP.tags bp) (BPInterface.pc bp_upd)).2)
      as -> by congruence.
    pose proof (read_hit _ _ _ Hr) as Hr1.
    pose proof (read_geometry (BP.tags bp) (BPInterface.pc bp_upd)) as Hg.
    pose proof (read_resident (BP.tags bp) (BPInterface.pc bp_upd)) as Hrr.
    destruct (CacheTagArray.read (BP.tags bp) (BPInterface.pc bp_upd)) as [[hit w'] c].
    cbn [fst snd] in *. injection Hr1 as -> ->.
    split; [done|]. split; [done|]. cbn [BP.tags BP.data fst snd].
    intros w' st t Hres'. rewrite (geometry_num_sets _ _ Hg).
    apply Hrr in Hres'.
    destruct (Hsync _ _ _ Hres') as (Hst & e' & He' & Hm). split; [done|].
    destruct (decide (w' = w ∧ st = CacheTagArray.set (BP.tags bp) (BPInterface.pc bp_upd)))
      as [[-> ->]|Hne].
    + assert (t = CacheTagArray.tag (BP.tags bp) (BPInterface.pc bp_upd)) as ->
        by by eapply resident_way.
      eexists. split; [by eapply at_store_eq|].
      rewrite lookup_alter_eq, Hm. simpl. congruence.
    + exists e'. split; [by rewrite at_store_ne|].
      rewrite lookup_alter_ne; [done|]. intros <-. apply Hne.
      assert (st = CacheTagArray.set (BP.tags bp) (BPInterface.pc bp_upd)) as -> by done.
      split; [|done]. by eapply resident_tag.
  - destruct (update_miss bp bp_upd Hwf Hsets Hr)
      as (w & c & e & Hw & He & Hu' & Hwf' & Hlt & Hg & Hres).
    assert (bp' = BP.mk (BP.store (BP.data bp) w
                           (CacheTagArray.set (BP.tags bp) (BPInterface.pc bp_upd))
                           (BPEntry.update
                              (BPEntry.update_target (BPEntry.reset e)
                                 (BPInterface.target bp_upd))
                              (BPInterface.is_taken bp_upd) (BPInterface.target bp_upd))) c)
      as -> by congruence.
    rewrite (read_miss _ _ _ Hr), Hw. cbn [fst snd].
    split; [done|]. split; [done|]. cbn [BP.tags BP.data fst snd].
    intros w' st t Hres'. rewrite (geometry_num_sets _ _ Hg).
    apply Hres in Hres' as [(-> & -> & ->)|[Hres0 Hne]].
    + split; [done|]. eexists. split; [by eapply at_store_eq|].
      by rewrite lookup_insert_eq, BPEntry.reset_init.
    + destruct (Hsync _ _ _ Hres0) as (Hst & e' & He' & Hm). split; [done|].
      exists e'. split; [by rewrite at_store_ne|].
      rewrite lookup_insert_ne; [done|]. intros <-. apply (Hmiss Ht w').
      by assert (CacheTagArray.set (BP.tags bp) (BPInterface.pc bp_upd) = st) as -> by done.
Qed.

Lemma synced_step bp s o bp' cs :
  synced bp s → BP.step o bp = Some ((), bp', cs) → synced bp' (BP.history_step s o).
Proof.
  intros Hs Hstep. destruct o as [PC|PC|PC|bp_upd];
    [| | |by eapply synced_update];
    match type of Hstep with
    | BP.step ?o _ = _ => destruct (query_step bp o (proj1 Hs) I) as (cs' & Hq & _)
    end;
    rewrite Hq in Hstep; by simplify_eq.
Qed.

Lemma synced_run ops : ∀ bp s bp' cs,
  synced bp s → BP.run ops bp = Some ((), bp', cs) → synced bp' (foldl BP.history_step s ops).
Proof.
  induction ops as [|o ops IH]; intros bp s bp' cs Hs Hrun.
  { injection Hrun as <- _. done. }
  rewrite run_cons in Hrun.
  destruct (BP.step o bp) as [[[[] bp1] cs1]|] eqn:Hstep; [|done].
  destruct (BP.run ops bp1) as [[[[] bp2] cs2]|] eqn:Hrun1; [|done].
  injection Hrun as <- _. simpl. eapply IH; [|done]. by eapply synced_step.
Qed.

(** C9. In every state that queries and updates reach from a freshly
    constructed table, an address that hits is reported at a coordinate
    inside the entry array whose entry is the prediction state of the
    address's line: the state that the training events of that line since
    its last allocation produce.  Two addresses reported at the same
    coordinate lie in the same line.  With at least as many entries as
    ways, every sequence of queries and updates reaches such a state. *)
Theorem hit_coordinate_holds_line_state size ways bits bp0 ops :
  BP.new size ways bits = Some bp0 →
  (ways ≤ size → ∃ bp cs, BP.run ops bp0 = Some ((), bp, cs)) ∧
  (∀ bp cs, BP.run ops bp0 = Some ((), bp, cs) →
     (∀ a w, CacheTagArray.read_no_touch (BP.tags bp) a = (true, w) →
        ∃ e, BP.at_ (BP.data bp) w (CacheTagArray.set (BP.tags bp) a) = Some e ∧
          (BP.history (BP.tags bp0) ops).2 !! CacheTagArray.tag (BP.tags bp) a = Some e) ∧
     (∀ a b w, CacheTagArray.read_no_touch (BP.tags bp) a = (true, w) →
        CacheTagArray.read_no_touch (BP.tags bp) b = (true, w) →
        CacheTagArray.set (BP.tags bp) a = CacheTagArray.set (BP.tags bp) b →
        CacheTagArray.tag (BP.tags bp) a = CacheTagArray.tag (BP.tags bp) b)).
Proof.
  intros Hnew. pose proof Hnew as (Hways & Hwf0 & Ht0 & _)%new_spec. split.
  - intros Hle.
    destruct (run_in_bounds bp0 ops Hwf0) as (bp & cs & Hrun & _); [|by eauto].
    rewrite Ht0. unfold CacheTagArray.num_sets. simpl.
    pose proof (N.div_str_pos size ways). lia.
  - intros bp cs Hrun.
    assert (synced bp0 (BP.tags bp0, ∅)) as Hs0.
    { split; [done|]. split; [done|]. intros w st t Hres. rewrite Ht0 in Hres.
      by apply new_no_resident in Hres. }
    destruct (synced_run ops _ _ _ _ Hs0 Hrun) as (Hwf & _ & Hsync).
    pose proof Hwf as (Ht & _). split.
    + intros a w Hr. apply peek_hit in Hr; [|done].
      destruct (Hsync _ _ _ Hr) as (_ & e & He & Hm). by exists e.
    + intros a b w Ha Hb Hset. apply peek_hit in Ha, Hb; [|done..].
      rewrite <- Hset in Hb. by eapply resident_way.
Qed.

End Synchronised.

Section OnMips32.
#[local] Existing Instance mips32.

Lemma hit_coordinate_holds_line_state_witness :
  BP.new 8 2 32 = Some fresh_two_bit ∧
  ∃ bp cs,
    BP.run [BP.do_update (BPInterface.mk 0x1000 true 0x2000); BP.do_is_taken 0x1000;
            BP.do_update (BPInterface.mk 0x1000 true 0x2000)] fresh_two_bit
      = Some ((), bp, cs) ∧
    CacheTagArray.read_no_touch (BP.tags bp) 0x1000 = (true, 0) ∧
    BP.at_ (BP.data bp) 0 0 = Some (BPEntry.mkTwoBit 0x2000 BPEntry.ST) ∧
    (BP.history (BP.tags fresh_two_bit)
       [BP.do_update (BPInterface.mk 0x1000 true 0x2000); BP.do_is_taken 0x1000;
        BP.do_update (BPInterface.mk 0x1000 true 0x2000)]).2 !! (0x400 : N)
      = Some (BPEntry.mkTwoBit 0x2000 BPEntry.ST).
Proof.
  split; [exact fresh_two_bit_new|].
  do 2 eexists. split; [vm_compute; reflexivity|]. split; [vm_compute; reflexivity|].
  match goal with |- BP.at_ (BP.data ?bp) _ _ = _ ∧ _ =>
    destruct (hit_coordinate_holds_line_state 8 2 32 fresh_two_bit
                [BP.do_update (BPInterface.mk 0x1000 true 0x2000); BP.do_is_taken 0x1000;
                 BP.do_update (BPInterface.mk 0x1000 true 0x2000)]
                fresh_two_bit_new) as [_ Hinv];
    destruct (Hinv bp _ ltac:(vm_compute; reflexivity)) as [Hhit _];
    destruct (Hhit 0x1000 0 ltac:(vm_compute; reflexivity)) as (e & He & Hm)
  end.
  vm_compute in He. injection He as <-. split; [vm_compute; reflexivity|exact Hm].
Defined.

End OnMips32.

(** ** Tables whose columns have no rows *)

Section WithoutRows.
Context `{Platform} {T : Type} `{BPEntry.Ops T}.
Implicit Types (bp : BP.table (T := T)).

(** With more ways than entries the columns of the entry array are empty:
    the constructor builds the table, the queries miss and answer, and
    [update] indexes [data[ way][ set]] outside its column. *)
Lemma update_without_rows bp bp_upd :
  BP_wf bp → CacheTagArray.num_sets (BP.tags bp) = 0 → BP.update bp_upd bp = None.
Proof.
  intros Hwf Hn. destruct (BP.update bp_upd bp) as [r|] eqn:Hu; [|done].
  by destruct (update_returns_sets bp bp_upd r Hwf Hu).
Qed.

End WithoutRows.

Section OnMips32.
#[local] Existing Instance mips32.

(** [create( name, 1, 2)] returns a predictor: its table has two columns
    and no row, and no training call on it returns. *)
Lemma update_of_created_table_does_not_return :
  ∃ bp, BPFactory.create "dynamic_two_bit" 1 2 32
          = BPFactory.Returned (BPFactory.two_bit bp) ∧
    BP_wf bp ∧ BP.data bp = [[]; []] ∧
    ∀ bp_upd, BPFactory.update bp_upd (BPFactory.two_bit bp) = None.
Proof.
  assert (BP.new (T := BPEntry.BPEntryTwoBit) 1 2 32
          = Some (BP.mk [[]; []] (CacheTagArray.new 1 2 4 32))) as Hnew by reflexivity.
  eexists. split; [reflexivity|].
  apply new_spec in Hnew as (_ & Hwf & _). split; [exact Hwf|]. split; [reflexivity|].
  intros bp_upd. unfold BPFactory.update, BPFactory.virtual.
  by rewrite (update_without_rows _ bp_upd Hwf).
Qed.


End OnMips32.

(** * Further properties of the table *)

Section TableFrames.
Context `{Platform} {T : Type} `{BPEntry.Ops T}.
Implicit Types (bp : BP.table (T := T)).

Lemma store_lengths (d : list (list T)) w s e : length <$> BP.store d w s e = length <$> d.
Proof.
  unfold BP.store. apply list_eq. intros j. rewrite !list_lookup_fmap.
  destruct (decide (N.to_nat w = j)) as [<-|Hne].
  - rewrite list_lookup_alter_eq. destruct (d !! N.to_nat w); simpl; [|done].
    by rewrite length_insert.
  - by rewrite list_lookup_alter_ne.
Qed.

(** Whatever [update] returns differs from the table it ran on in one
    entry and in the tag array. *)
Lemma update_frame bp bp_upd bp' cs :
  BP_wf bp → BP.update bp_upd bp = Some ((), bp', cs) →
  ∃ way e,
    BP.data bp' = BP.store (BP.data bp) way
                    (CacheTagArray.set (BP.tags bp) (BPInterface.pc bp_upd)) e ∧
    BP_wf bp' ∧ geometry (BP.tags bp') = geometry (BP.tags bp).
Proof.
  intros Hwf Hu. pose proof (update_returns_sets _ _ _ Hwf Hu) as Hsets.
  destruct (peek_cases (BP.tags bp) (BPInterface.pc bp_upd)) as [(w & Hr & _)|[Hr _]].
  - destruct (update_hit bp bp_upd w Hwf Hr) as (e & _ & Hu' & Hwf').
    rewrite Hu in Hu'. injection Hu' as -> _.
    do 2 eexists. split; [done|]. split; [done|]. apply read_geometry.
  - destruct (update_miss bp bp_upd Hwf Hsets Hr)
      as (w & c & e & _ & _ & Hu' & Hwf' & _ & Hg & _).
    rewrite Hu in Hu'. injection Hu' as -> _.
    do 2 eexists. split; [done|]. split; [done|]. done.
Qed.

Lemma run_keeps_shape ops : ∀ bp bp' cs,
  BP_wf bp → BP.run ops bp = Some ((), bp', cs) →
  BP_wf bp' ∧ geometry (BP.tags bp') = geometry (BP.tags bp) ∧
  length <$> BP.data bp' = length <$> BP.data bp.
Proof.
  induction ops as [|o ops IH]; intros bp bp' cs Hwf Hrun.
  { injection Hrun as <- _. done. }
  rewrite run_cons in Hrun.
  destruct (BP.step o bp) as [[[[] bp1] cs1]|] eqn:Hstep; [|done].
  destruct (BP.run ops bp1) as [[[[] bp2] cs2]|] eqn:Hrun1; [|done].
  injection Hrun as <- _.
  assert (BP_wf bp1 ∧ geometry (BP.tags bp1) = geometry (BP.tags bp) ∧
          length <$> BP.data bp1 = length <$> BP.data bp) as (Hwf1 & Hg1 & Hl1).
  { destruct o as [PC|PC|PC|bp_upd].
    1-3: match type of Hstep with
         | BP.step ?o _ = _ => destruct (query_step bp o Hwf I) as (cs' & Hq & _)
         end; rewrite Hq in Hstep; by simplify_eq.
    destruct (update_frame bp bp_upd bp1 cs1 Hwf Hstep) as (way & e & Hd & Hwf1 & Hg1).
    split; [done|]. split; [done|]. by rewrite Hd, store_lengths. }
  destruct (IH bp1 bp2 cs2 Hwf1 Hrun1) as (Hwf2 & Hg2 & Hl2).
  split; [done|]. split; [by rewrite Hg2|]. by rewrite Hl2.
Qed.

(** X1. On a well-formed table [get_bp_info( PC)] returns [PC] itself;
    when it predicts not taken its target is the fallthrough [PC + 4], and
    when it predicts taken the address hits and the target is the one saved
    in the entry of the hit coordinate. *)
Theorem get_bp_info_target_follows_direction bp PC :
  BP_wf bp →
  ∃ info cs, BP.get_bp_info PC bp = Some (info, bp, cs) ∧
    BPInterface.pc info = PC ∧
    (BPInterface.is_taken info = false → BPInterface.target info = addr_add PC 4) ∧
    (BPInterface.is_taken info = true →
     ∃ w e, CacheTagArray.read_no_touch (BP.tags bp) PC = (true, w) ∧
       BP.at_ (BP.data bp) w (CacheTagArray.set (BP.tags bp) PC) = Some e ∧
       BPEntry.is_taken e PC = true ∧
       BPInterface.target info = BPEntry.getTarget e).
Proof.
  intros Hwf. rewrite get_bp_info_eq.
  destruct (CacheTagArray.read_no_touch (BP.tags bp) PC) as [[] w] eqn:Hr.
  - destruct (hit_entry bp PC w Hwf Hr) as (_ & _ & [e He]). cbv zeta. rewrite He. simpl.
    do 2 eexists. split; [done|]. simpl. split; [done|].
    destruct (BPEntry.is_taken e PC) eqn:Ht; (split; [done|]); [|done].
    intros _. by exists w, e.
  - do 2 eexists. split; [done|]. simpl. by repeat split.
Qed.

(** X2. [update] writes one entry: every entry at another coordinate than
    the way it settles on and the set of the event's address is afterwards
    what it was, and no column changes its length. *)
Theorem update_writes_one_entry bp bp_upd :
  BP_wf bp → CacheTagArray.num_sets (BP.tags bp) ≠ 0 →
  ∃ bp' cs way, BP.update bp_upd bp = Some ((), bp', cs) ∧
    (∀ w s, ¬ (w = way ∧ s = CacheTagArray.set (BP.tags bp) (BPInterface.pc bp_upd)) →
       BP.at_ (BP.data bp') w s = BP.at_ (BP.data bp) w s) ∧
    length <$> BP.data bp' = length <$> BP.data bp.
Proof.
  intros Hwf Hsets.
  destruct (step_in_bounds bp (BP.do_update bp_upd) Hwf Hsets) as (bp' & cs & Hu & _).
  cbn [BP.step] in Hu.
  destruct (update_frame bp bp_upd bp' cs Hwf Hu) as (way & e & Hd & _).
  exists bp', cs, way. split; [done|]. rewrite Hd. split; [|apply store_lengths].
  intros w s Hne. by apply at_store_ne.
Qed.

(** X3. Training an address that is resident evicts nothing: [update]
    makes no insertion, and every address hits or misses afterwards as
    before, in the same way. *)
Theorem update_on_hit_keeps_every_lookup bp bp_upd w :
  BP_wf bp →
  CacheTagArray.read_no_touch (BP.tags bp) (BPInterface.pc bp_upd) = (true, w) →
  ∃ bp' cs, BP.update bp_upd bp = Some ((), bp', cs) ∧
    (BP.tags_write (BPInterface.pc bp_upd) ∉ cs) ∧
    ∀ b, CacheTagArray.read_no_touch (BP.tags bp') b
         = CacheTagArray.read_no_touch (BP.tags bp) b.
Proof.
  intros Hwf Hr. destruct (update_hit bp bp_upd w Hwf Hr) as (e & _ & Hu & _).
  do 2 eexists. split; [done|]. split.
  - rewrite !not_elem_of_cons. repeat split; try done. apply not_elem_of_nil.
  - intros b. cbn [BP.tags]. apply peek_after_read, Hwf.
Qed.

(** X4. After [update] the event's address hits, and the queries read the
    entry just trained: [is_taken] is that entry's direction and
    [get_target] its target when the direction is taken, the fallthrough
    otherwise. *)
Theorem update_then_queries_read_the_trained_entry bp bp_upd :
  BP_wf bp → CacheTagArray.num_sets (BP.tags bp) ≠ 0 →
  let PC := BPInterface.pc bp_upd in
  ∃ bp' cs e0 cs1 cs2,
    BP.update bp_upd bp = Some ((), bp', cs) ∧
    trains_from bp bp_upd e0 ∧
    let e := BPEntry.update e0 (BPInterface.is_taken bp_upd) (BPInterface.target bp_upd) in
    BP.is_taken PC bp' = Some (BPEntry.is_taken e PC, bp', cs1) ∧
    BP.get_target PC bp' =
      Some (if BPEntry.is_taken e PC then BPEntry.getTarget e else addr_add PC 4, bp', cs2).
Proof.
  intros Hwf Hsets. cbv zeta.
  destruct (update_then_peek bp bp_upd Hwf Hsets)
    as (bp' & cs & w & e0 & Hu & _ & _ & Hfrom & Hr & He).
  destruct (queries_on_hit bp' _ w _ Hr He) as (cs1 & cs2 & Ht & Hg).
  by exists bp', cs, e0, cs1, cs2.
Qed.

(** X6. Training one line leaves the predictions of every other line that
    is still resident as they were: for an address of another line that
    hits after [update], [is_taken] and [get_target] answer as before. *)
Theorem update_keeps_other_predictions bp bp_upd a wa :
  BP_wf bp → CacheTagArray.num_sets (BP.tags bp) ≠ 0 →
  CacheTagArray.tag (BP.tags bp) a ≠ CacheTagArray.tag (BP.tags bp) (BPInterface.pc bp_upd) →
  ∃ bp' cs, BP.update bp_upd bp = Some ((), bp', cs) ∧
    (CacheTagArray.read_no_touch (BP.tags bp') a = (true, wa) →
     ∃ taken target cs1 cs2 cs1' cs2',
       BP.is_taken a bp = Some (taken, bp, cs1) ∧
       BP.is_taken a bp' = Some (taken, bp', cs1') ∧
       BP.get_target a bp = Some (target, bp, cs2) ∧
       BP.get_target a bp' = Some (target, bp', cs2')).
Proof.
  intros Hwf Hsets Hne. pose proof Hwf as (Ht & _).
  assert (∀ bp' way e w,
            BP_wf bp' → geometry (BP.tags bp') = geometry (BP.tags bp) →
            BP.data bp' = BP.store (BP.data bp) way
                            (CacheTagArray.set (BP.tags bp) (BPInterface.pc bp_upd)) e →
            CacheTagArray.read_no_touch (BP.tags bp) a = (true, w) →
            CacheTagArray.read_no_touch (BP.tags bp') a = (true, w) →
            ¬ (w = way ∧ CacheTagArray.set (BP.tags bp) a
                         = CacheTagArray.set (BP.tags bp) (BPInterface.pc bp_upd)) →
            ∃ taken target cs1 cs2 cs1' cs2',
              BP.is_taken a bp = Some (taken, bp, cs1) ∧
              BP.is_taken a bp' = Some (taken, bp', cs1') ∧
              BP.get_target a bp = Some (target, bp, cs2) ∧
              BP.get_target a bp' = Some (target, bp', cs2')) as Hsame.
  { intros bp' way e w Hwf' Hg Hd Hb Ha Hcoord.
    destruct (hit_entry bp a w Hwf Hb) as (_ & _ & [ea Hea]).
    assert (BP.at_ (BP.data bp') w (CacheTagArray.set (BP.tags bp') a) = Some ea) as Hea'.
    { rewrite (geometry_set _ _ _ Hg), Hd, at_store_ne; done. }
    destruct (queries_on_hit bp a w ea Hb Hea) as (cs1 & cs2 & Hq1 & Hq2).
    destruct (queries_on_hit bp' a w ea Ha Hea') as (cs1' & cs2' & Hq1' & Hq2').
    by do 6 eexists. }
  destruct (peek_cases (BP.tags bp) (BPInterface.pc bp_upd)) as [(w & Hr & Hres)|[Hr _]].
  - destruct (update_hit bp bp_upd w Hwf Hr) as (e & _ & Hu & Hwf').
    do 2 eexists. split; [done|]. intros Ha.
    pose proof Ha as Hb. cbn [BP.tags] in Hb. rewrite peek_after_read in Hb by done.
    eapply (Hsame _ w _ wa Hwf'); [apply read_geometry|done|done|done|].
    intros [-> Hset]. apply peek_hit in Hb; [|done]. rewrite Hset in Hb.
    destruct Hne. by eapply resident_way.
  - destruct (update_miss bp bp_upd Hwf Hsets Hr)
      as (w & c & e & _ & _ & Hu & Hwf' & _ & Hg & Hresc).
    do 2 eexists. split; [done|]. intros Ha.
    pose proof Hwf' as (Ht' & _). cbn [BP.tags] in Ht'.
    pose proof Ha as Hb. cbn [BP.tags] in Hb. apply peek_hit in Hb; [|done].
    rewrite (geometry_set _ _ _ Hg), (geometry_tag _ _ _ Hg) in Hb.
    apply Hresc in Hb as [(_ & _ & ?)|[Hb Hcoord]]; [done|].
    apply peek_hit in Hb; [|done].
    by eapply (Hsame _ w _ wa Hwf').
Qed.

(** X7. No call resizes the table: in every state that queries and
    updates reach from a constructed table, the entry array has the [ways]
    columns of [size_in_entries / ways] rows it was constructed with, and
    the tag array its four parameters. *)
Theorem run_keeps_the_constructed_shape size ways bits bp0 ops bp cs :
  BP.new size ways bits = Some bp0 → BP.run ops bp0 = Some ((), bp, cs) →
  length <$> BP.data bp = replicate (N.to_nat ways) (N.to_nat (size / ways)) ∧
  geometry (BP.tags bp) = (size, ways, 4, bits).
Proof.
  intros (_ & Hwf0 & Ht0 & Hd0)%new_spec Hrun.
  destruct (run_keeps_shape ops bp0 bp cs Hwf0 Hrun) as (_ & Hg & Hl).
  rewrite Hl, Hg, Hd0, Ht0. split; [|done].
  by rewrite fmap_replicate, length_replicate.
Qed.

End TableFrames.

Section FreshAllocation.
Context `{Platform} {T : Type} `{BPEntry.Laws T}.
Implicit Types (bp : BP.table (T := T)).

(** X5. An allocated entry carries nothing over from the line it
    replaces: after a miss the coordinate holds the cold entry seeded with
    the event's target and trained once with the event, whatever the
    coordinate held. *)
Theorem update_on_miss_leaves_no_stale_state bp bp_upd :
  BP_wf bp → CacheTagArray.num_sets (BP.tags bp) ≠ 0 →
  CacheTagArray.read_no_touch (BP.tags bp) (BPInterface.pc bp_upd) = (false, miss_way) →
  let PC := BPInterface.pc bp_upd in
  let taken := BPInterface.is_taken bp_upd in
  let target := BPInterface.target bp_upd in
  ∃ bp' cs way, BP.update bp_upd bp = Some ((), bp', cs) ∧
    CacheTagArray.read_no_touch (BP.tags bp') PC = (true, way) ∧
    BP.at_ (BP.data bp') way (CacheTagArray.set (BP.tags bp') PC) =
      Some (BPEntry.update (BPEntry.update_target BPEntry.init target) taken target).
Proof.
  intros Hwf Hsets Hr. cbv zeta.
  destruct (update_then_peek bp bp_upd Hwf Hsets)
    as (bp' & cs & w & e0 & Hu & _ & _ & Hfrom & Hr' & He).
  unfold trains_from in Hfrom. rewrite Hr in Hfrom. destruct Hfrom as [e ->].
  rewrite BPEntry.reset_init in He. by exists bp', cs, w.
Qed.

End FreshAllocation.

Section FactoryNames.
Context `{Platform}.

(** X8. [create] builds the algorithm its name is registered for: the
    handle returned for a name wraps the table of that name's entry type,
    and the queries and [update] hand back a handle of the same
    algorithm. *)
Theorem create_builds_the_named_algorithm name size ways bits h :
  BPFactory.create name size ways bits = BPFactory.Returned h →
  algorithm_name h = name ∧
  (∀ a r h' cs, BPFactory.is_taken a h = Some (r, h', cs) → algorithm_name h' = name) ∧
  (∀ a r h' cs, BPFactory.get_target a h = Some (r, h', cs) → algorithm_name h' = name) ∧
  (∀ bp_upd r h' cs, BPFactory.update bp_upd h = Some (r, h', cs) →
     algorithm_name h' = name).
Proof.
  intros Hc. assert (algorithm_name h = name) as <-.
  { unfold BPFactory.create in Hc. pose proof (map_find_cases name) as Hm.
    destruct (BPFactory.map_find name BPFactory.map) as [creator|]; [|done].
    destruct Hm as [_ [[-> ->]|[[-> ->]|[[-> ->]|[[-> ->]|[-> ->]]]]]];
      unfold BPFactory.create_with in Hc;
      destruct (BP.new size ways bits) as [bp|]; simpl in Hc; by simplify_eq. }
  split; [done|].
  unfold BPFactory.is_taken, BPFactory.get_target, BPFactory.update, BPFactory.virtual.
  repeat split; intros ? r h' cs Hq; destruct h as [bp|bp|bp|bp|bp];
    match type of Hq with
    | context [?m bp] => destruct (m bp) as [[[? ?] ?]|]
    end; simpl in Hq; by simplify_eq.
Qed.

End FactoryNames.

Section OnMips32.
#[local] Existing Instance mips32.

Lemma get_bp_info_target_follows_direction_witness :
  BP_wf trained_two_bit ∧
  ∃ info cs, BP.get_bp_info 0x1000 trained_two_bit = Some (info, trained_two_bit, cs) ∧
    BPInterface.pc info = 0x1000 ∧ BPInterface.is_taken info = true ∧
    BPInterface.target info = 0x2000.
Proof.
  split; [apply trained_two_bit_wf|].
  destruct (get_bp_info_target_follows_direction trained_two_bit 0x1000 trained_two_bit_wf)
    as (info & cs & Hq & Hpc & _).
  exists info, cs. split; [exact Hq|]. split; [exact Hpc|].
  vm_compute in Hq. injection Hq as <- _. split; reflexivity.
Defined.

Lemma update_writes_one_entry_witness :
  BP_wf fresh_two_bit ∧
  CacheTagArray.num_sets (BP.tags fresh_two_bit) ≠ 0 ∧
  ∃ bp' cs way,
    BP.update (BPInterface.mk 0x1000 true 0x2000) fresh_two_bit = Some ((), bp', cs) ∧
    (∀ w s, ¬ (w = way ∧ s = CacheTagArray.set (BP.tags fresh_two_bit) 0x1000) →
       BP.at_ (BP.data bp') w s = BP.at_ (BP.data fresh_two_bit) w s) ∧
    length <$> BP.data bp' = length <$> BP.data fresh_two_bit.
Proof.
  assert (BP_wf fresh_two_bit) as Hwf by apply (new_spec 8 2 32), fresh_two_bit_new.
  assert (CacheTagArray.num_sets (BP.tags fresh_two_bit) ≠ 0) as Hsets by (by vm_compute).
  split; [exact Hwf|]. split; [exact Hsets|].
  exact (update_writes_one_entry fresh_two_bit (BPInterface.mk 0x1000 true 0x2000) Hwf Hsets).
Defined.

Lemma update_on_hit_keeps_every_lookup_witness :
  BP_wf trained_two_bit ∧
  CacheTagArray.read_no_touch (BP.tags trained_two_bit) 0x1000 = (true, 0) ∧
  ∃ bp' cs,
    BP.update (BPInterface.mk 0x1000 false 0x3000) trained_two_bit = Some ((), bp', cs) ∧
    (BP.tags_write 0x1000 ∉ cs) ∧
    ∀ b, CacheTagArray.read_no_touch (BP.tags bp') b
         = CacheTagArray.read_no_touch (BP.tags trained_two_bit) b.
Proof.
  assert (CacheTagArray.read_no_touch (BP.tags trained_two_bit) 0x1000 = (true, 0)) as Hr
    by reflexivity.
  split; [apply trained_two_bit_wf|]. split; [exact Hr|].
  exact (update_on_hit_keeps_every_lookup trained_two_bit
           (BPInterface.mk 0x1000 false 0x3000) 0 trained_two_bit_wf Hr).
Defined.

Lemma update_then_queries_read_the_trained_entry_witness :
  BP_wf fresh_two_bit ∧
  CacheTagArray.num_sets (BP.tags fresh_two_bit) ≠ 0 ∧
  ∃ bp' cs cs1 cs2,
    BP.update (BPInterface.mk 0x1000 true 0x2000) fresh_two_bit = Some ((), bp', cs) ∧
    BP.is_taken 0x1000 bp' = Some (true, bp', cs1) ∧
    BP.get_target 0x1000 bp' = Some (0x2000, bp', cs2).
Proof.
  assert (BP_wf fresh_two_bit) as Hwf by apply (new_spec 8 2 32), fresh_two_bit_new.
  assert (CacheTagArray.num_sets (BP.tags fresh_two_bit) ≠ 0) as Hsets by (by vm_compute).
  split; [exact Hwf|]. split; [exact Hsets|].
  destruct (update_then_queries_read_the_trained_entry fresh_two_bit
              (BPInterface.mk 0x1000 true 0x2000) Hwf Hsets)
    as (bp' & cs & e0 & cs1 & cs2 & Hu & Hfrom & Ht & Hg).
  exists bp', cs, cs1, cs2. split; [exact Hu|].
  destruct Hfrom as [e ->]. split; [exact Ht|exact Hg].
Defined.

Lemma update_on_miss_leaves_no_stale_state_witness :
  BP_wf trained_two_bit ∧
  CacheTagArray.num_sets (BP.tags trained_two_bit) ≠ 0 ∧
  CacheTagArray.read_no_touch (BP.tags trained_two_bit) 0x1010 = (false, miss_way) ∧
  ∃ bp' cs way,
    BP.update (BPInterface.mk 0x1010 false 0x1020) trained_two_bit = Some ((), bp', cs) ∧
    CacheTagArray.read_no_touch (BP.tags bp') 0x1010 = (true, way) ∧
    BP.at_ (BP.data bp') way (CacheTagArray.set (BP.tags bp') 0x1010) =
      Some (BPEntry.mkTwoBit 0x1020 BPEntry.SNT).
Proof.
  assert (CacheTagArray.num_sets (BP.tags trained_two_bit) ≠ 0) as Hsets by (by vm_compute).
  assert (CacheTagArray.read_no_touch (BP.tags trained_two_bit) 0x1010 = (false, miss_way))
    as Hmiss by reflexivity.
  split; [apply trained_two_bit_wf|]. split; [exact Hsets|]. split; [exact Hmiss|].
  exact (update_on_miss_leaves_no_stale_state trained_two_bit
           (BPInterface.mk 0x1010 false 0x1020) trained_two_bit_wf Hsets Hmiss).
Defined.

Lemma update_keeps_other_predictions_witness :
  BP_wf trained_two_bit ∧
  CacheTagArray.num_sets (BP.tags trained_two_bit) ≠ 0 ∧
  CacheTagArray.tag (BP.tags trained_two_bit) 0x1000
    ≠ CacheTagArray.tag (BP.tags trained_two_bit) 0x1010 ∧
  ∃ bp' cs cs1 cs2,
    BP.update (BPInterface.mk 0x1010 false 0x1020) trained_two_bit = Some ((), bp', cs) ∧
    BP.is_taken 0x1000 bp' = Some (true, bp', cs1) ∧
    BP.get_target 0x1000 bp' = Some (0x2000, bp', cs2).
Proof.
  assert (CacheTagArray.num_sets (BP.tags trained_two_bit) ≠ 0) as Hsets by (by vm_compute).
  assert (CacheTagArray.tag (BP.tags trained_two_bit) 0x1000
          ≠ CacheTagArray.tag (BP.tags trained_two_bit) 0x1010) as Hne by (by vm_compute).
  split; [apply trained_two_bit_wf|]. split; [exact Hsets|]. split; [exact Hne|].
  destruct (update_keeps_other_predictions trained_two_bit
              (BPInterface.mk 0x1010 false 0x1020) 0x1000 0 trained_two_bit_wf Hsets Hne)
    as (bp' & cs & Hu & Hsame).
  destruct Hsame as (taken & target & cs1 & cs2 & cs1' & cs2' & Ht & Ht' & Hg & Hg').
  { vm_compute in Hu. injection Hu as <- _. reflexivity. }
  exists bp', cs, cs1', cs2'. split; [exact Hu|].
  vm_compute in Ht. injection Ht as <- _. vm_compute in Hg. injection Hg as <- _.
  split; [exact Ht'|exact Hg'].
Defined.

Lemma run_keeps_the_constructed_shape_witness :
  BP.new 8 2 32 = Some fresh_two_bit ∧
  ∃ bp cs,
    BP.run [BP.do_update (BPInterface.mk 0x1000 true 0x2000); BP.do_get_bp_info 0x1000;
            BP.do_update (BPInterface.mk 0x1010 false 0x1020); BP.do_is_taken 0x1010]
      fresh_two_bit = Some ((), bp, cs) ∧
    length <$> BP.data bp = replicate (N.to_nat 2) (N.to_nat (8 / 2)) ∧
    geometry (BP.tags bp) = (8, 2, 4, 32).
Proof.
  split; [exact fresh_two_bit_new|].
  assert (∃ bp cs,
            BP.run [BP.do_update (BPInterface.mk 0x1000 true 0x2000);
                    BP.do_get_bp_info 0x1000;
                    BP.do_update (BPInterface.mk 0x1010 false 0x1020);
                    BP.do_is_taken 0x1010]
              fresh_two_bit = Some ((), bp, cs)) as (bp & cs & Hrun)
    by (vm_compute; eauto).
  exists bp, cs. split; [exact Hrun|].
  exact (run_keeps_the_constructed_shape 8 2 32 fresh_two_bit _ bp cs
           fresh_two_bit_new Hrun).
Defined.

Lemma create_builds_the_named_algorithm_witness :
  BPFactory.create "dynamic_two_bit" 8 2 32 = BPFactory.Returned (BPFactory.two_bit fresh_two_bit) ∧
  algorithm_name (BPFactory.two_bit fresh_two_bit) = "dynamic_two_bit".
Proof.
  assert (BPFactory.create "dynamic_two_bit" 8 2 32
          = BPFactory.Returned (BPFactory.two_bit fresh_two_bit)) as Hc by reflexivity.
  split; [exact Hc|].
  exact (proj1 (create_builds_the_named_algorithm "dynamic_two_bit" 8 2 32 _ Hc)).
Defined.

End OnMips32.

(** * The expectations of the ports test *)

Section Expectations.
Import ports_testing.
Implicit Types (m : gmap N Logic.State) (s : Logic.State) (c : LogicCall).

Lemma blogic_rows cycle :
  cycle ≤ Logic.EXPECTED_MAX_CYCLE → is_Some (Logic.blogic !! cycle).
Proof.
  unfold Logic.EXPECTED_MAX_CYCLE. intros Hle.
  assert (cycle = 0 ∨ cycle = 1 ∨ cycle = 2 ∨ cycle = 3 ∨ cycle = 4 ∨ cycle = 5 ∨
          cycle = 6 ∨ cycle = 7 ∨ cycle = 8) as Hc by lia.
  repeat destruct Hc as [->|Hc]; try subst cycle; by eexists.
Qed.

Lemma blogic_no_row cycle :
  Logic.EXPECTED_MAX_CYCLE < cycle → Logic.blogic !! cycle = None.
Proof.
  unfold Logic.EXPECTED_MAX_CYCLE, Logic.blogic. intros Hlt.
  cbn [list_to_map foldr fst snd]. rewrite !lookup_insert_ne by lia. apply lookup_empty.
Qed.

Lemma narrows_refl s : narrows s s.
Proof. by repeat split. Qed.

Lemma narrows_trans s1 s2 s3 : narrows s1 s2 → narrows s2 s3 → narrows s1 s3.
Proof.
  intros (HA & HB & H1 & H2 & H3) (HA' & HB' & H1' & H2' & H3').
  repeat split; [congruence|congruence|tauto|tauto|tauto].
Qed.

Lemma narrowed_blogic : narrowed Logic.blogic.
Proof. intros cycle. destruct (Logic.blogic !! cycle); [apply narrows_refl|done]. Qed.

Lemma narrowed_rows m cycle :
  narrowed m → is_Some (m !! cycle) ↔ cycle ≤ Logic.EXPECTED_MAX_CYCLE.
Proof.
  intros Hn. specialize (Hn cycle).
  destruct (N.le_gt_cases cycle Logic.EXPECTED_MAX_CYCLE) as [Hle|Hgt].
  - destruct (blogic_rows cycle Hle) as [s0 Hs0]. rewrite Hs0 in Hn.
    destruct (m !! cycle); [|done]. split; [done|by eexists].
  - rewrite (blogic_no_row cycle Hgt) in Hn. destruct (m !! cycle); [done|].
    split; [by intros [? ?]|lia].
Qed.

Lemma index_row m cycle s : m !! cycle = Some s → Logic.index m cycle = (s, m).
Proof. unfold Logic.index. by intros ->. Qed.

(** Whatever a check does, a row that is there stays, narrowed. *)
Lemma index_keeps m cycle' cycle s :
  m !! cycle = Some s → (Logic.index m cycle').2 !! cycle = Some s.
Proof.
  intros Hs. unfold Logic.index. destruct (m !! cycle') eqn:Hc; [done|].
  cbn [snd]. rewrite lookup_insert_ne; [done|]. by intros ->; simplify_eq.
Qed.

Lemma check_flag_keeps f clear m cycle' is_ready cycle s :
  (∀ s, narrows (clear s) s) →
  m !! cycle = Some s →
  ∃ s', (Logic.check_flag f clear m cycle' is_ready).2 !! cycle = Some s' ∧ narrows s' s.
Proof.
  intros Hclear Hs. unfold Logic.check_flag.
  pose proof (index_keeps m cycle' cycle s Hs) as H1.
  destruct (Logic.index m cycle') as [s1 m1] eqn:Hi1. cbn [snd] in H1.
  destruct (eqb (f s1) is_ready && is_ready).
  - pose proof (index_keeps m1 cycle' cycle s H1) as H2.
    destruct (Logic.index m1 cycle') as [s2 m2] eqn:Hi2. cbn [snd] in *.
    destruct (decide (cycle' = cycle)) as [->|Hne].
    + rewrite lookup_insert_eq. eexists. split; [done|].
      assert (s2 = s) as ->; [|done].
      unfold Logic.index in Hi2. rewrite H1 in Hi2. by simplify_eq.
    + rewrite lookup_insert_ne by done. exists s. split; [done|apply narrows_refl].
  - exists s. split; [done|apply narrows_refl].
Qed.

Lemma do_check_keeps c m cycle s :
  m !! cycle = Some s → ∃ s', (do_check m c).2 !! cycle = Some s' ∧ narrows s' s.
Proof.
  intros Hs. assert (∃ s', m !! cycle = Some s' ∧ narrows s' s) as Hsame.
  { exists s. split; [done|apply narrows_refl]. }
  destruct c as [cycle' code is_ready|cycle' code d]; cbn [do_check].
  - unfold Logic.check_readiness. destruct (_ <? _); [done|].
    destruct code; try done; apply check_flag_keeps; try done;
      intros s1; by repeat split.
  - unfold Logic.check_data. destruct (_ || _); [done|].
    destruct code; try done.
    all: pose proof (index_keeps m cycle' cycle s Hs) as H1;
      destruct (Logic.index m cycle') as [s1 m1]; cbn [snd] in *;
      exists s; split; [done|apply narrows_refl].
Qed.

Lemma after_checks_keeps cs : ∀ m cycle s,
  m !! cycle = Some s → ∃ s', after_checks cs m !! cycle = Some s' ∧ narrows s' s.
Proof.
  induction cs as [|c cs IH]; intros m cycle s Hs.
  { exists s. split; [done|apply narrows_refl]. }
  destruct (do_check_keeps c m cycle s Hs) as (s1 & Hs1 & Hn1).
  destruct (IH _ cycle s1 Hs1) as (s2 & Hs2 & Hn2).
  exists s2. split; [done|]. by eapply narrows_trans.
Qed.

(** On the rows of every cycle up to the last, no check inserts. *)
Lemma do_check_narrowed c m :
  narrowed m →
  narrowed (do_check m c).2 ∧
  ((do_check m c).2 = m ∨
   ∃ cycle code, c = call_check_readiness cycle code true ∧ consumable code ∧
     (do_check m c).1 = true).
Proof.
  intros Hn.
  assert (∀ cycle f clear,
            (∀ s, narrows (clear s) s) → (Logic.EXPECTED_MAX_CYCLE <? cycle) = false →
            ∀ is_ready,
            narrowed (Logic.check_flag f clear m cycle is_ready).2 ∧
            ((Logic.check_flag f clear m cycle is_ready).2 = m ∨
             is_ready = true ∧ (Logic.check_flag f clear m cycle is_ready).1 = true))
    as Hflag.
  { intros cycle f clear Hclear Hle%N.ltb_ge is_ready.
    destruct (proj2 (narrowed_rows m cycle Hn) Hle) as [s Hs].
    unfold Logic.check_flag. rewrite (index_row m cycle s Hs).
    destruct (eqb (f s) is_ready) eqn:Hok, is_ready; cbn [andb snd fst];
      try (split; [done|by left]).
    rewrite (index_row m cycle s Hs). cbn [snd fst].
    split; [|by right]. intros cycle'. specialize (Hn cycle').
    destruct (decide (cycle = cycle')) as [<-|Hne].
    - rewrite lookup_insert_eq. rewrite Hs in Hn.
      destruct (Logic.blogic !! cycle); [|done]. by eapply narrows_trans.
    - by rewrite lookup_insert_ne. }
  destruct c as [cycle code is_ready|cycle code d]; cbn [do_check].
  - unfold Logic.check_readiness.
    destruct (Logic.EXPECTED_MAX_CYCLE <? cycle) eqn:Hle; [split; [done|by left]|].
    destruct code; try (split; [done|by left]).
    all: match goal with
         | |- context [Logic.check_flag ?f ?clear] =>
             destruct (Hflag cycle f clear) with (is_ready := is_ready)
               as [Hn' [Heq|[-> Hok]]]; [by intros s; repeat split|done| |]
         end.
    all: split; try done; try (by left).
    all: right; exists cycle; eexists; split; [done|]; split; [|done];
      unfold consumable; tauto.
  - unfold Logic.check_data.
    destruct (Logic.EXPECTED_MAX_CYCLE <? cycle) eqn:Hle; [split; [done|by left]|].
    apply N.ltb_ge in Hle. destruct (proj2 (narrowed_rows m cycle Hn) Hle) as [s Hs].
    destruct (_ || _); [split; [done|by left]|].
    destruct code; rewrite ?(index_row m cycle s Hs); split; try done; by left.
Qed.

Lemma after_checks_narrowed cs : ∀ m, narrowed m → narrowed (after_checks cs m).
Proof.
  induction cs as [|c cs IH]; intros m Hn; [done|].
  apply IH. by apply do_check_narrowed.
Qed.


Lemma narrowed_row m cycle :
  narrowed m → cycle ≤ Logic.EXPECTED_MAX_CYCLE →
  ∃ s s0, m !! cycle = Some s ∧ Logic.blogic !! cycle = Some s0 ∧ narrows s s0.
Proof.
  intros Hn Hle. destruct (proj2 (narrowed_rows m cycle Hn) Hle) as [s Hs].
  specialize (Hn cycle). rewrite Hs in Hn.
  destruct (Logic.blogic !! cycle) as [s0|]; [|done]. by exists s, s0.
Qed.

Lemma check_data_narrowed m cycle code d :
  narrowed m →
  (Logic.check_data m cycle code d).2 = m ∧
  ((Logic.check_data m cycle code d).1 = true ↔
   1 ≤ cycle ≤ 7 ∧ code = data_code cycle ∧ d = (Z.of_N cycle - 1)%Z).
Proof.
  intros Hn. destruct (do_check_narrowed (call_check_data cycle code d) m Hn)
    as [_ [Heq|(? & ? & ? & _)]]; [|done].
  split; [done|]. clear Heq. unfold Logic.check_data.
  destruct (Logic.EXPECTED_MAX_CYCLE <? cycle) eqn:Hle; cbn [orb fst].
  { apply N.ltb_lt in Hle. unfold Logic.EXPECTED_MAX_CYCLE in Hle.
    split; [done|lia]. }
  apply N.ltb_ge in Hle.
  destruct (narrowed_row m cycle Hn Hle) as (s & s0 & Hs & Hs0 & HA & HB & _).
  rewrite !(index_row m cycle s Hs), HA, HB. clear Hs HA HB Hn.
  remember (data_code cycle) as dc eqn:Hdc.
  unfold Logic.EXPECTED_MAX_CYCLE in Hle.
  assert (cycle = 0 ∨ cycle = 1 ∨ cycle = 2 ∨ cycle = 3 ∨ cycle = 4 ∨ cycle = 5 ∨
          cycle = 6 ∨ cycle = 7 ∨ cycle = 8) as Hc by lia.
  repeat destruct Hc as [->|Hc]; try subst cycle.
  all: vm_compute in Hs0, Hdc; injection Hs0 as <-; subst dc.
  all: destruct (Z.ltb_spec d 0) as [Hd|Hd]; [split; [by destruct code|lia]|].
  all: destruct code; cbn [fst Logic.data_from_A Logic.data_from_B andb N.eqb Pos.eqb];
    unfold Logic.NONE; rewrite ?Z.eqb_eq;
    (split; [try done; intros; repeat split; try done; lia
            |intros (? & ? & ?); try done; lia]).
Qed.

Lemma accepted_read m cycle code :
  consumable code → (Logic.check_readiness m cycle code true).1 = true →
  cycle ≤ Logic.EXPECTED_MAX_CYCLE ∧
  ∃ s s', m !! cycle = Some s ∧ flag code s = true ∧
    (Logic.check_readiness m cycle code true).2 = <[cycle := s']> m ∧
    flag code s' = false.
Proof.
  intros Hcode. unfold Logic.check_readiness.
  destruct (Logic.EXPECTED_MAX_CYCLE <? cycle) eqn:Hle; [done|].
  apply N.ltb_ge in Hle. intros Hok. split; [done|]. revert Hok.
  destruct Hcode as [-> | [-> | ->]]; unfold Logic.check_flag, Logic.index;
    (destruct (m !! cycle) as [s|] eqn:Hs; [|done]);
    cbn [flag]; rewrite ?Hs;
    match goal with |- context [eqb ?b true] => destruct b eqn:Hf end; [|done| |done| |done];
    cbn [eqb andb fst snd]; rewrite ?Hs; intros _; by do 2 eexists.
Qed.

Lemma cleared_read m cycle code s :
  consumable code → cycle ≤ Logic.EXPECTED_MAX_CYCLE →
  m !! cycle = Some s → flag code s = false →
  Logic.check_readiness m cycle code true = (false, m) ∧
  Logic.check_readiness m cycle code false = (true, m).
Proof.
  intros Hcode Hle%N.ltb_ge Hs Hf. unfold Logic.check_readiness. rewrite Hle.
  destruct Hcode as [-> | [-> | ->]]; unfold Logic.check_flag;
    rewrite (index_row m cycle s Hs); cbn [flag] in Hf; rewrite Hf; cbn [eqb andb]; split; reflexivity.
Qed.

Lemma narrows_flag code s' s : narrows s' s → flag code s = false → flag code s' = false.
Proof.
  intros (_ & _ & HA & HB & HI) Hf. apply not_true_iff_false. intros Hf'.
  destruct code; cbn [flag] in *; try done;
    [apply HA in Hf'|apply HB in Hf'|apply HI in Hf']; congruence.
Qed.

(** X9. The checks never add a cycle to the expectations and never alter
    expected data: after any sequence of checks on the initial
    expectations the cycles are those up to [EXPECTED_MAX_CYCLE], and each
    holds the data it started with and no readiness flag that was not set
    at the start. *)
Theorem checks_keep_cycles_and_data cs :
  let m := after_checks cs Logic.blogic in
  (∀ cycle, is_Some (m !! cycle) ↔ cycle ≤ Logic.EXPECTED_MAX_CYCLE) ∧
  (∀ cycle s, m !! cycle = Some s →
     ∃ s0, Logic.blogic !! cycle = Some s0 ∧ narrows s s0).
Proof.
  cbv zeta. pose proof (after_checks_narrowed cs _ narrowed_blogic) as Hn.
  split; [intros cycle; by apply narrowed_rows|].
  intros cycle s Hs. specialize (Hn cycle). rewrite Hs in Hn.
  destruct (Logic.blogic !! cycle) as [s0|]; [|done]. by exists s0.
Qed.

(** X10. Only an accepted read changes the expectations: in a state that
    checks reach from the initial one, a check leaves the expectations as
    they are unless it is a readiness check of the initial port or of
    the port from A or from B, made with [is_ready] true, that succeeds. *)
Theorem only_an_accepted_read_changes_expectations cs c :
  let m := after_checks cs Logic.blogic in
  (do_check m c).2 = m ∨
  ∃ cycle code, c = call_check_readiness cycle code true ∧ consumable code ∧
    (do_check m c).1 = true.
Proof.
  cbv zeta. apply do_check_narrowed, after_checks_narrowed, narrowed_blogic.
Qed.

(** X11. Whatever checks came before, [check_data] accepts in cycle [c]
    exactly the datum [c - 1], for the cycles 1 to 7 and under the code of
    the side whose turn it is: [DATA_INIT] in cycle 1, [DATA_FROM_A] in the
    even cycles, [DATA_FROM_B] in the odd ones. It accepts no negative datum,
    so the [NONE] of a cycle without data matches nothing, and it leaves
    the expectations as they are. *)
Theorem check_data_accepts_the_running_count cs cycle code d :
  let m := after_checks cs Logic.blogic in
  (Logic.check_data m cycle code d).2 = m ∧
  ((Logic.check_data m cycle code d).1 = true ↔
   1 ≤ cycle ≤ 7 ∧ code = data_code cycle ∧ d = (Z.of_N cycle - 1)%Z).
Proof.
  cbv zeta. apply check_data_narrowed, after_checks_narrowed, narrowed_blogic.
Qed.

(** X12. An accepted read is consumed for good: once [check_readiness]
    has succeeded with [is_ready] true for the initial port or the port
    from A or from B in some cycle, then after any further checks the same
    check fails, and the check with [is_ready] false succeeds. *)
Theorem accepted_readiness_is_consumed m cs cycle code :
  consumable code →
  (Logic.check_readiness m cycle code true).1 = true →
  let m' := after_checks cs (Logic.check_readiness m cycle code true).2 in
  (Logic.check_readiness m' cycle code true).1 = false ∧
  (Logic.check_readiness m' cycle code false).1 = true.
Proof.
  intros Hcode Hok. cbv zeta.
  destruct (accepted_read m cycle code Hcode Hok) as (Hle & s & s' & _ & _ & -> & Hf).
  destruct (after_checks_keeps cs (<[cycle:=s']> m) cycle s') as (s'' & Hs'' & Hn).
  { apply lookup_insert_eq. }
  pose proof (narrows_flag code s'' s' Hn Hf) as Hf''.
  destruct (cleared_read _ cycle code s'' Hcode Hle Hs'' Hf'') as [-> ->]. done.
Qed.

(** X13. The initial expectations follow the exchange between A and B:
    a datum accepted from A, passed through [B::process_data], is written
    to the port to A, and is expected ready and accepted from B one
    [PORT_LATENCY] later; a datum accepted from the initial port or from B,
    passed through [A::process_data], is either written to the port to B
    and expected from A one latency later, or, past [DATA_LIMIT], answered
    by the stop signal, which is expected ready one latency later. *)
Theorem expectations_follow_the_exchange cycle d :
  let next := cycle + PORT_LATENCY in
  ((Logic.check_data Logic.blogic cycle Logic.DATA_FROM_A d).1 = true →
   B.process_data d cycle = Some (write_int "B_to_A" (d + 1) cycle) ∧
   (Logic.check_readiness Logic.blogic next Logic.IS_FROM_B_READY true).1 = true ∧
   (Logic.check_data Logic.blogic next Logic.DATA_FROM_B (d + 1)).1 = true) ∧
  ((Logic.check_data Logic.blogic cycle Logic.DATA_INIT d).1 = true ∨
   (Logic.check_data Logic.blogic cycle Logic.DATA_FROM_B d).1 = true →
   if (d + 1 <=? DATA_LIMIT)%Z
   then A.process_data d cycle = Some (write_int "A_to_B" (d + 1) cycle) ∧
        (Logic.check_readiness Logic.blogic next Logic.IS_FROM_A_READY true).1 = true ∧
        (Logic.check_data Logic.blogic next Logic.DATA_FROM_A (d + 1)).1 = true
   else A.process_data d cycle = Some (write_bool "stop" true cycle) ∧
        (Logic.check_readiness Logic.blogic next Logic.IS_STOP_READY true).1 = true).
Proof.
  cbv zeta. unfold PORT_LATENCY.
  assert (∀ code, (Logic.check_data Logic.blogic cycle code d).1 = true →
            code = data_code cycle ∧
            (cycle, d) ∈ [(1, 0%Z); (2, 1%Z); (3, 2%Z); (4, 3%Z); (5, 4%Z); (6, 5%Z);
                          (7, 6%Z)]) as Hacc.
  { intros code (Hc & -> & ->)%(check_data_narrowed _ _ _ _ narrowed_blogic).
    split; [done|].
    assert (cycle = 1 ∨ cycle = 2 ∨ cycle = 3 ∨ cycle = 4 ∨ cycle = 5 ∨ cycle = 6 ∨
            cycle = 7) as Hcy by lia.
    repeat destruct Hcy as [->|Hcy]; try subst cycle; by_decide. }
  split.
  - intros [Hcode Hin]%Hacc. rewrite !elem_of_cons, elem_of_nil in Hin.
    repeat destruct Hin as [Hin|Hin]; try done; simplify_eq; try done.
  - intros [[Hcode Hin]%Hacc|[Hcode Hin]%Hacc]; rewrite !elem_of_cons, elem_of_nil in Hin;
      repeat destruct Hin as [Hin|Hin]; try done; simplify_eq; try done.
Qed.

End Expectations.

Lemma accepted_readiness_is_consumed_witness :
  consumable ports_testing.Logic.IS_FROM_A_READY ∧
  (ports_testing.Logic.check_readiness ports_testing.Logic.blogic 2
     ports_testing.Logic.IS_FROM_A_READY true).1 = true ∧
  let m' :=
    after_checks [call_check_data 2 ports_testing.Logic.DATA_FROM_A 1;
                  call_check_readiness 2 ports_testing.Logic.IS_FROM_B_READY false]
      (ports_testing.Logic.check_readiness ports_testing.Logic.blogic 2
         ports_testing.Logic.IS_FROM_A_READY true).2 in
  (ports_testing.Logic.check_readiness m' 2 ports_testing.Logic.IS_FROM_A_READY true).1
    = false ∧
  (ports_testing.Logic.check_readiness m' 2 ports_testing.Logic.IS_FROM_A_READY false).1
    = true.
Proof.
  assert (consumable ports_testing.Logic.IS_FROM_A_READY) as Hcode by (right; by left).
  split; [exact Hcode|]. split; [reflexivity|].
  apply (accepted_readiness_is_consumed ports_testing.Logic.blogic _ 2
           ports_testing.Logic.IS_FROM_A_READY Hcode).
  reflexivity.
Defined.

Lemma expectations_follow_the_exchange_witness :
  (ports_testing.Logic.check_data ports_testing.Logic.blogic 2
     ports_testing.Logic.DATA_FROM_A 1).1 = true ∧
  ports_testing.B.process_data 1 2 = Some (ports_testing.write_int "B_to_A" 2 2) ∧
  (ports_testing.Logic.check_readiness ports_testing.Logic.blogic 3
     ports_testing.Logic.IS_FROM_B_READY true).1 = true ∧
  (ports_testing.Logic.check_data ports_testing.Logic.blogic 3
     ports_testing.Logic.DATA_FROM_B 2).1 = true.
Proof.
  assert ((ports_testing.Logic.check_data ports_testing.Logic.blogic 2
             ports_testing.Logic.DATA_FROM_A 1).1 = true) as Hacc by reflexivity.
  split; [exact Hacc|].
  exact (proj1 (expectations_follow_the_exchange 2 1%Z) Hacc).
Defined.
